(** * text2sql: the SQL validator, the completion extractor, the query
      executor and the context store

    A shallow embedding of [sql_validator.py], of the extraction block and
    [run_query] of [app.py], and of [ChromaManager] of [chroma_manager.py],
    with the properties of the generation-and-safety pipeline proved on it.

    Python [str] values are Rocq [string]s read as ASCII text: character
    classes and case mapping are those of Python on code points 0..127
    (a character above 127 is a caseless symbol that is neither white space
    nor a word character).  Non-ASCII text is outside this model. *)

From Stdlib Require Import Bool Arith Lia List ZArith Ascii String.
From Stdlib Require Import DecimalString DecimalNat.
Import ListNotations.
Open Scope string_scope.

(** ** Python string primitives *)

Module Py.

Definition code (c : ascii) : nat := nat_of_ascii c.

Definition between (lo hi : nat) (c : ascii) : bool :=
  Nat.leb lo (code c) && Nat.leb (code c) hi.

(** [str.isspace] on ASCII: TAB..CR, FS..US and the blank. *)
Definition isspace (c : ascii) : bool := between 9 13 c || between 28 32 c.

Definition isupper (c : ascii) : bool := between 65 90 c.
Definition islower (c : ascii) : bool := between 97 122 c.
Definition isdigit (c : ascii) : bool := between 48 57 c.

(** The class [\w] of [re]: letters, digits and the underscore. *)
Definition isword (c : ascii) : bool :=
  isupper c || islower c || isdigit c || Ascii.eqb c "_".

Definition upper_char (c : ascii) : ascii :=
  if islower c then ascii_of_nat (code c - 32) else c.

Definition lower_char (c : ascii) : ascii :=
  if isupper c then ascii_of_nat (code c + 32) else c.

Fixpoint map_str (f : ascii -> ascii) (s : string) : string :=
  match s with
  | EmptyString => EmptyString
  | String c s' => String (f c) (map_str f s')
  end.

Definition upper : string -> string := map_str upper_char.
Definition lower : string -> string := map_str lower_char.

(** Truth value of a string: [not s] holds of the empty string only. *)
Definition is_empty (s : string) : bool :=
  match s with EmptyString => true | String _ _ => false end.

Fixpoint lstrip (s : string) : string :=
  match s with
  | EmptyString => EmptyString
  | String c s' => if isspace c then lstrip s' else s
  end.

Fixpoint rstrip (s : string) : string :=
  match s with
  | EmptyString => EmptyString
  | String c s' =>
      let r := rstrip s' in
      if isspace c && is_empty r then EmptyString else String c r
  end.

Definition strip (s : string) : string := rstrip (lstrip s).

(** The first character, and the last one ([prev] when there is none). *)
Definition head (s : string) : option ascii :=
  match s with EmptyString => None | String c _ => Some c end.

Fixpoint last_char (prev : option ascii) (s : string) : option ascii :=
  match s with
  | EmptyString => prev
  | String c s' => last_char (Some c) s'
  end.

(** [s.startswith(p)] *)
Fixpoint startswith (s p : string) {struct p} : bool :=
  match p with
  | EmptyString => true
  | String a p' =>
      match s with
      | EmptyString => false
      | String b s' => Ascii.eqb a b && startswith s' p'
      end
  end.

(** [p in s] *)
Fixpoint contains (p s : string) : bool :=
  startswith s p ||
  match s with
  | EmptyString => false
  | String _ s' => contains p s'
  end.

(** [s.find(p)]: the least index at which [p] occurs, [-1] when none. *)
Fixpoint find_from (i : Z) (s p : string) : Z :=
  if startswith s p then i
  else match s with
       | EmptyString => (-1)%Z
       | String _ s' => find_from (i + 1) s' p
       end.

Definition find (s p : string) : Z := find_from 0 s p.

Fixpoint drop (n : nat) (s : string) : string :=
  match n, s with
  | O, _ => s
  | S _, EmptyString => EmptyString
  | S n', String _ s' => drop n' s'
  end.

Fixpoint take (n : nat) (s : string) : string :=
  match n, s with
  | O, _ => EmptyString
  | S _, EmptyString => EmptyString
  | S n', String c s' => String c (take n' s')
  end.

(** A slice bound, as Python clips it: a negative bound counts from the
    end, and every bound is brought into [0 .. len]. *)
Definition clip (len : nat) (i : Z) : nat :=
  if (i <? 0)%Z then Z.to_nat (Z.max 0 (Z.of_nat len + i))
  else Nat.min (Z.to_nat i) len.

(** [s[i:]] and [s[:i]] *)
Definition slice_from (s : string) (i : Z) : string :=
  drop (clip (String.length s) i) s.

Definition slice_to (s : string) (i : Z) : string :=
  take (clip (String.length s) i) s.

(** [s.split(sep)] for a non-empty [sep] (every call site passes a
    literal): the pieces between the leftmost non-overlapping occurrences
    of [sep].  [skip] counts the characters of a matched separator that
    are still to be passed over. *)
Fixpoint split_go (sep : string) (skip : nat) (s : string) : list string :=
  match s with
  | EmptyString => [EmptyString]
  | String c s' =>
      match skip with
      | S k => split_go sep k s'
      | O =>
          if startswith s sep
          then EmptyString :: split_go sep (String.length sep - 1) s'
          else match split_go sep 0 s' with
               | piece :: rest => String c piece :: rest
               | [] => [String c EmptyString]
               end
      end
  end.

Definition split (s sep : string) : list string := split_go sep 0 s.

(** [sep.join(pieces)] *)
Definition join (sep : string) (pieces : list string) : string :=
  String.concat sep pieces.

(** [s.replace(old, new)] for a non-empty [old]. *)
Definition replace (s old new : string) : string := join new (split s old).

(** [str(i)] for a non-negative integer. *)
Definition str_of_nat (i : nat) : string :=
  NilEmpty.string_of_uint (Nat.to_uint i).

(** Every character. *)
Definition all_ascii : list ascii := map ascii_of_nat (seq 0 256).

Definition LF : ascii := "010"%char.
Definition nl : string := String LF EmptyString.

(** *** Exceptions *)

Inductive exn : Set := IndexError.

Inductive outcome (A : Type) : Type :=
| Returned (a : A)
| Raised (e : exn).
Arguments Returned {A} a.
Arguments Raised {A} e.

Definition bind {A B : Type} (m : outcome A) (k : A -> outcome B) : outcome B :=
  match m with
  | Returned a => k a
  | Raised e => Raised e
  end.

(** [l[i]] for [0 <= i]: raises [IndexError] out of range. *)
Definition item {A : Type} (l : list A) (i : nat) : outcome A :=
  match nth_error l i with
  | Some a => Returned a
  | None => Raised IndexError
  end.

End Py.

Import Py.

Notation "x <- m ;; k" := (bind m (fun x => k))
  (at level 61, m at next level, right associativity).
Notation "' pat <- m ;; k" := (bind m (fun x => match x with pat => k end))
  (at level 61, pat pattern, m at next level, right associativity).

(** ** The fragment of [re] the validator uses *)

Module Re.

Inductive atom : Set :=
| Bol                    (* ^   *)
| WordB                  (* \b  *)
| SpaceStar              (* \s* *)
| Lit (c : ascii).

Definition pattern := list atom.

Fixpoint lits (s : string) : pattern :=
  match s with
  | EmptyString => []
  | String c s' => Lit c :: lits s'
  end.

Definition word_at (c : option ascii) : bool :=
  match c with Some a => isword a | None => false end.

(** [\b]: exactly one of the two neighbours is a word character. *)
Definition boundary (prev next : option ascii) : bool :=
  xorb (word_at prev) (word_at next).

Definition lit_eq (ignorecase : bool) (c d : ascii) : bool :=
  if ignorecase then Ascii.eqb (lower_char c) (lower_char d) else Ascii.eqb c d.

(** The literals of [w] match the characters of [m], one by one. *)
Fixpoint lit_all (ic : bool) (w m : string) : bool :=
  match w, m with
  | EmptyString, EmptyString => true
  | String c w', String d m' => lit_eq ic c d && lit_all ic w' m'
  | _, _ => false
  end.

(** Does [p] match at the current position?  [prev] is the character just
    before it ([None] at the start of the text), [s] the text from it on. *)
Fixpoint match_here (ic : bool) (p : pattern) : option ascii -> string -> bool :=
  match p with
  | [] => fun _ _ => true
  | Bol :: p' => fun prev s =>
      match prev with None => match_here ic p' prev s | Some _ => false end
  | WordB :: p' => fun prev s =>
      boundary prev (head s) && match_here ic p' prev s
  | Lit c :: p' => fun _ s =>
      match s with
      | EmptyString => false
      | String d s' => lit_eq ic c d && match_here ic p' (Some d) s'
      end
  | SpaceStar :: p' =>
      fix star (prev : option ascii) (s : string) : bool :=
        match s with
        | EmptyString => false
        | String d s' => isspace d && star (Some d) s'
        end || match_here ic p' prev s
  end.

(** [re.match(p, s)] *)
Definition re_match (ic : bool) (p : pattern) (s : string) : bool :=
  match_here ic p None s.

Fixpoint search_from (ic : bool) (p : pattern) (prev : option ascii) (s : string) : bool :=
  match_here ic p prev s ||
  match s with
  | EmptyString => false
  | String c s' => search_from ic p (Some c) s'
  end.

(** [re.search(p, s)] *)
Definition re_search (ic : bool) (p : pattern) (s : string) : bool :=
  search_from ic p None s.

End Re.

Import Re.

(** ** sql_validator.py *)

Definition IGNORECASE : bool := true.
Definition NOFLAGS : bool := false.

(** [r'^\s*SELECT'] *)
Definition select_pattern : pattern := Bol :: SpaceStar :: lits "SELECT".

(** [r'\b' + keyword + r'\b'] *)
Definition word_pattern (keyword : string) : pattern :=
  WordB :: lits keyword ++ [WordB].

Definition prohibited_keywords : list string :=
  [ "INSERT"; "UPDATE"; "DELETE"; "DROP"; "ALTER";
    "ATTACH"; "DETACH"; "PRAGMA"; "TRUNCATE"; "REPLACE";
    "CREATE"; "GRANT"; "REVOKE"; "COMMIT"; "ROLLBACK"; "EXEC"; "EXECUTE" ].

(** The loop over the denylist: the first keyword found, if any. *)
Fixpoint first_prohibited (keywords : list string) (upper_query : string) : option string :=
  match keywords with
  | [] => None
  | keyword :: rest =>
      if re_search NOFLAGS (word_pattern keyword) upper_query then Some keyword
      else first_prohibited rest upper_query
  end.

Definition msg_empty : string := "Query is empty.".
Definition msg_multiple : string :=
  "Multiple statements are not allowed (semicolon detected in middle of query).".
Definition msg_select : string := "Only SELECT queries are allowed.".
Definition msg_keyword (keyword : string) : string :=
  "Prohibited keyword detected: " ++ keyword.
Definition msg_comments : string := "SQL comments are not allowed.".
Definition msg_valid : string := "Valid SQL".

Definition validate_sql (query : string) : bool * string :=
  if is_empty query then (false, msg_empty)
  else
    let query := strip query in
    if is_empty query then (false, msg_empty)
    else if contains ";" (slice_to query (-1)) then (false, msg_multiple)
    else if negb (re_match IGNORECASE select_pattern query) then (false, msg_select)
    else
      match first_prohibited prohibited_keywords (upper query) with
      | Some keyword => (false, msg_keyword keyword)
      | None =>
          if contains "--" query || contains "/*" query then (false, msg_comments)
          else (true, msg_valid)
      end.

(** ** app.py: the extraction of one SQL statement from a completion *)

Record CompletionResult : Set := mkCompletion {
  reasoning : string;
  sql : string
}.

Definition FENCE : string := "```".
Definition SEPARATOR : string := "### SQL START ###".

(** Lines 200-201: an opening fence keeps what lies between it and the
    next fence. *)
Definition strip_fence (generated_sql : string) : outcome string :=
  if startswith generated_sql FENCE then
    part <- item (split generated_sql FENCE) 1 ;;
    Returned (strip part)
  else Returned generated_sql.

(** Lines 202-203: a leading language tag. *)
Definition strip_language_tag (generated_sql : string) : string :=
  if startswith (lower generated_sql) "sql"
  then strip (slice_from generated_sql 3)
  else generated_sql.

(** Lines 206-223: the separator when there is one, else the first SELECT;
    the result is the pair (reasoning, SQL candidate). *)
Definition split_reasoning (generated_sql : string) : outcome (string * string) :=
  if contains SEPARATOR generated_sql then
    let parts := split generated_sql SEPARATOR in
    before <- item parts 0 ;;
    after <- item parts 1 ;;
    Returned (strip before, strip after)
  else if contains "SELECT" (upper generated_sql) then
    let idx := find (upper generated_sql) "SELECT" in
    let pre_text := strip (slice_to generated_sql idx) in
    let reasoning := if Nat.ltb 5 (String.length pre_text) then pre_text else "" in
    Returned (reasoning, slice_from generated_sql idx)
  else Returned ("", generated_sql).

(** Lines 228-232: the loop over the lines of the candidate. *)
Fixpoint clean_loop (lines : list string) : list string :=
  match lines with
  | [] => []
  | line :: rest =>
      let l := strip line in
      if startswith l "Note:" || startswith l "Explanation:" then []
      else if negb (startswith l "--") && negb (startswith l "/*")
           then line :: clean_loop rest
           else clean_loop rest
  end.

(** Lines 226-233. *)
Definition clean_lines (generated_sql : string) : string :=
  strip (join nl (clean_loop (split generated_sql nl))).

(** Lines 236-237. *)
Definition semicolon_fix (generated_sql : string) : outcome string :=
  if contains ";" generated_sql then
    first <- item (split generated_sql ";") 0 ;;
    Returned (first ++ ";")
  else Returned generated_sql.

(** Lines 196-203: the completion without its fence and language tag. *)
Definition unfenced (content : string) : outcome string :=
  g <- strip_fence (strip content) ;;
  Returned (strip_language_tag g).

(** The SQL candidate as it stands after the line-level cleanup. *)
Definition cleaned_candidate (content : string) : outcome string :=
  g <- unfenced content ;;
  '(_, candidate) <- split_reasoning g ;;
  Returned (clean_lines candidate).

(** Lines 196-237, from [response.content] to the pair that is shown and
    stored. *)
Definition extract_completion (content : string) : outcome CompletionResult :=
  g <- unfenced content ;;
  '(reasoning, candidate) <- split_reasoning g ;;
  generated_sql <- semicolon_fix (clean_lines candidate) ;;
  Returned (mkCompletion reasoning generated_sql).

(** Line 242: the reasoning as it is displayed. *)
Definition displayed_reasoning (reasoning : string) : string :=
  strip (replace (replace reasoning "/*" "") "*/" "").

(** ** app.py: [run_query] and the session log *)

Inductive LogEntry : Set :=
| Success (query : string) (time : string)
| Error (query : string) (error : string).

(** What running a statement on the engine gives: the rows and the
    formatted duration, or the text of the exception. *)
Inductive execution (DataFrame : Type) : Type :=
| Rows (df : DataFrame) (duration : string)
| Failure (message : string).
Arguments Rows {DataFrame} df duration.
Arguments Failure {DataFrame} message.

(** The session: [st.session_state.logs], newest entry first, and the
    statements that were handed to the engine, newest first. *)
Record Session : Set := mkSession {
  logs : list LogEntry;
  submitted : list string
}.

Section Executor.

Variable DataFrame : Type.

(** Lines 51-57, the body of the [try]: connect and [pd.read_sql]. *)
Variable engine : string -> execution DataFrame.

Definition run_query (query : string) (st : Session)
  : (option DataFrame * option string) * Session :=
  let '(is_valid, msg) := validate_sql query in
  if negb is_valid then ((None, Some ("Validation Error: " ++ msg)), st)
  else
    let st := mkSession (logs st) (query :: submitted st) in
    match engine query with
    | Rows df duration =>
        ((Some df, None),
         mkSession (Success query (duration ++ "s") :: logs st) (submitted st))
    | Failure e =>
        ((None, Some ("Execution Error: " ++ e)),
         mkSession (Error query e :: logs st) (submitted st))
    end.

End Executor.

(** ** chroma_manager.py: the context store *)

Record Snippet : Set := mkSnippet {
  id : string;
  document : string;
  metadata : list (string * string)
}.

Definition Collection := list Snippet.

Fixpoint lookup (key : string) (d : list (string * string)) : option string :=
  match d with
  | [] => None
  | (k, v) :: d' => if String.eqb k key then Some v else lookup key d'
  end.

(** A [where] filter with one equality: [{key: value}]. *)
Definition satisfies (key value : string) (s : Snippet) : bool :=
  match lookup key (metadata s) with
  | Some v => String.eqb v value
  | None => false
  end.

Definition has_id (i : string) (c : Collection) : bool :=
  existsb (fun s => String.eqb (id s) i) c.

(** [collection.get(where=...)] *)
Definition collection_get (key value : string) (c : Collection) : Collection :=
  filter (satisfies key value) c.

(** [collection.delete(where=...)]: nothing to delete is not an error. *)
Definition collection_delete (key value : string) (c : Collection) : Collection :=
  filter (fun s => negb (satisfies key value s)) c.

(** [collection.add(...)]: a record whose id is already stored is ignored. *)
Fixpoint collection_add (new : list Snippet) (c : Collection) : Collection :=
  match new with
  | [] => c
  | s :: rest =>
      collection_add rest (if has_id (id s) c then c else (c ++ [s])%list)
  end.

Definition logic_documents : list string :=
  [ "To calculate total, use SUM(column).";
    "To count items, use COUNT(column).";
    "To filter results, use WHERE column = 'value'.";
    "To sort results, use ORDER BY column DESC/ASC.";
    "To group data, use GROUP BY column.";
    "To limit results, use LIMIT N.";
    "For 'top N per category', use window function: RANK() OVER (PARTITION BY category ORDER BY val DESC).";
    "For recursive hierarchies (e.g. org chart), use WITH RECURSIVE cte AS (...).";
    "For moving averages, use AVG(val) OVER (ORDER BY date ROWS BETWEEN 6 PRECEDING AND CURRENT ROW).";
    "For year-over-year growth, use LAG(val) OVER (ORDER BY date)." ].

(** [enumerate] *)
Fixpoint enumerate_from {A : Type} (i : nat) (l : list A) : list (nat * A) :=
  match l with
  | [] => []
  | x :: l' => (i, x) :: enumerate_from (S i) l'
  end.

Definition enumerate {A : Type} (l : list A) : list (nat * A) := enumerate_from 0 l.

Definition logic_snippets : list Snippet :=
  map (fun '(i, doc) =>
         mkSnippet ("logic_" ++ str_of_nat i) doc
                   [("type", "logic"); ("topic", "generic_sql")])
      (enumerate logic_documents).

Definition initialize_collection (c : Collection) : Collection :=
  if Nat.ltb 0 (List.length (collection_get "type" "logic" c)) then c
  else collection_add logic_snippets c.

(** Lines 73-80: one snippet per chunk that is not blank. *)
Fixpoint schema_loop (chunks : list (nat * string)) : list Snippet :=
  match chunks with
  | [] => []
  | (i, chunk) :: rest =>
      if is_empty (strip chunk) then schema_loop rest
      else
        let table_name := strip (hd "" (split chunk nl)) in
        mkSnippet ("schema_" ++ table_name ++ "_" ++ str_of_nat i)
                  ("Table: " ++ chunk)
                  [("type", "schema"); ("table", table_name)]
        :: schema_loop rest
  end.

Definition schema_snippets (schema_text : string) : list Snippet :=
  schema_loop (enumerate (split schema_text "Table: ")).

Definition index_schema (schema_text : string) (c : Collection) : Collection :=
  let c := collection_delete "type" "schema" c in
  let new := schema_snippets schema_text in
  match new with
  | [] => c
  | _ :: _ => collection_add new c
  end.

Section Retrieval.

(** [collection.query]: the stored snippets nearest to the question, at
    most [n_results] of them; the embedding and the distance are the
    vector store's. *)
Variable nearest : string -> nat -> Collection -> list Snippet.

Definition get_relevant_context (query : string) (n_results : nat) (c : Collection)
  : list string :=
  map document (nearest query n_results c).

End Retrieval.

(** ** The properties, in the words of the specification *)

(** [t] occurs in [s]. *)
Definition infix (t s : string) : Prop := exists a b, s = a ++ t ++ b.

(** White space only. *)
Fixpoint blank (s : string) : bool :=
  match s with
  | EmptyString => true
  | String c s' => isspace c && blank s'
  end.

(** [m] is [w] up to the case of letters. *)
Definition same_word (w m : string) : Prop := upper m = upper w.

(** Begins with SELECT in any letter case, possibly after white space. *)
Definition begins_with_select (t : string) : Prop :=
  exists ws m rest, t = ws ++ m ++ rest /\ blank ws = true /\ same_word "SELECT" m.

(** A semicolon somewhere before the final character. *)
Definition semicolon_inside (t : string) : Prop :=
  exists a b, t = a ++ ";" ++ b /\ b <> "".

(** [keyword] occurs in [s] in any letter case as a whole word: the
    characters next to the occurrence, if any, are not word characters. *)
Definition whole_word (keyword s : string) : Prop :=
  exists a m b,
    s = a ++ m ++ b /\ same_word keyword m /\
    word_at (last_char None a) = false /\ word_at (head b) = false.

(** The five conditions of the validator, on the trimmed query. *)
Definition spec_valid (query : string) : Prop :=
  let t := strip query in
  t <> "" /\
  begins_with_select t /\
  ~ semicolon_inside t /\
  (forall keyword, In keyword prohibited_keywords -> ~ whole_word keyword t) /\
  ~ infix "--" t /\ ~ infix "/*" t.

(** The text before the first occurrence of [sep] in [s], and the text
    after it. *)
Definition first_cut (sep s before after : string) : Prop :=
  s = before ++ sep ++ after /\
  forall x y, s = x ++ sep ++ y -> String.length before <= String.length x.


(** The token SELECT occurs in [s], in any letter case. *)
Definition select_token_in (s : string) : Prop :=
  exists m, same_word "SELECT" m /\ infix m s.

(** A keyword as the denylist has them: in upper case, with a word
    character at either end. *)
Definition keyword_ok (kw : string) : Prop :=
  upper kw = kw /\ word_at (head kw) = true /\ word_at (last_char None kw) = true.
(** ** app.py: the log over a session *)

(** [log['query']] *)
Definition entry_query (e : LogEntry) : string :=
  match e with
  | Success query _ => query
  | Error query _ => query
  end.

Section Sessions.

Variable DataFrame : Type.
Variable engine : string -> execution DataFrame.

(** The calls of [run_query] of one session, one after the other (each
    press of a Run button), from the state [st]. *)
Fixpoint run_session (queries : list string) (st : Session) : Session :=
  match queries with
  | [] => st
  | query :: rest => run_session rest (snd (run_query DataFrame engine query st))
  end.

End Sessions.

(** ** tests/test_complex_queries.py: the extraction as the test run has it *)

(** Lines 87-94. *)
Definition test_candidate (generated_sql : string) : outcome string :=
  if contains SEPARATOR generated_sql then
    after <- item (split generated_sql SEPARATOR) 1 ;;
    Returned (strip after)
  else if contains "SELECT" (upper generated_sql) then
    let idx := find (upper generated_sql) "SELECT" in
    Returned (slice_from generated_sql idx)
  else Returned generated_sql.

(** Lines 82-108, from [response.content] to the statement that is run. *)
Definition test_extraction (content : string) : outcome string :=
  candidate <- test_candidate (strip content) ;;
  semicolon_fix (clean_lines candidate).

(** ** Letter case of a pattern *)

(** A character that only itself is mapped to by [upper_char]. *)
Definition caseless (c : ascii) : Prop :=
  forall d, Ascii.eqb c (upper_char d) = Ascii.eqb c d.

Fixpoint all_caseless (p : string) : Prop :=
  match p with
  | EmptyString => True
  | String c p' => caseless c /\ all_caseless p'
  end.

(** ** schema_utils.py and value_utils.py *)

(** A call that may raise: the text of the exception, [str(e)], or the
    value. *)
Definition attempt (A : Type) : Type := (string + A)%type.

Definition and_then {A B : Type} (m : attempt A) (k : A -> attempt B) : attempt B :=
  match m with
  | inl e => inl e
  | inr a => k a
  end.

(** [l[0]] *)
Definition first_item (l : list string) : attempt string :=
  match l with
  | x :: _ => inr x
  | [] => inl "list index out of range"
  end.

(** A column as the inspector gives it: its name and [str(col['type'])]. *)
Record Column : Set := mkColumn {
  col_name : string;
  col_type : string
}.

Record ForeignKey : Set := mkForeignKey {
  constrained_columns : list string;
  referred_table : string;
  referred_columns : list string
}.

(** What [inspect(engine)] answers. *)
Record Inspector : Type := mkInspector {
  get_table_names : attempt (list string);
  get_columns : string -> attempt (list Column);
  get_foreign_keys : string -> attempt (list ForeignKey)
}.

(** The lines of the foreign keys (schema_utils.py 27-32, value_utils.py
    52-56). *)
Fixpoint fk_strings (fks : list ForeignKey) : attempt (list string) :=
  match fks with
  | [] => inr []
  | fk :: rest =>
      and_then (first_item (constrained_columns fk)) (fun fk_col =>
      and_then (first_item (referred_columns fk)) (fun ref_col =>
      and_then (fk_strings rest) (fun lines =>
      inr (("- Foreign Key: " ++ fk_col ++ " -> " ++ referred_table fk ++ "." ++ ref_col)
           :: lines))))
  end.

Definition col_string (col : Column) : string :=
  "- " ++ col_name col ++ " (" ++ col_type col ++ ")".

(** schema_utils.py 19-36: the loop over the tables. *)
Fixpoint schema_parts (inspector : Inspector) (table_names : list string)
  : attempt (list string) :=
  match table_names with
  | [] => inr []
  | table_name :: rest =>
      and_then (get_columns inspector table_name) (fun columns =>
      and_then (get_foreign_keys inspector table_name) (fun fks =>
      and_then (fk_strings fks) (fun fk_lines =>
      let table_desc :=
        "Table: " ++ table_name ++ nl ++ join nl (map col_string columns ++ fk_lines) in
      and_then (schema_parts inspector rest) (fun parts =>
      inr (table_desc :: parts)))))
  end.

(** [get_database_schema], from what [inspect(create_engine(...))] gives. *)
Definition get_database_schema (inspected : attempt Inspector) : string :=
  match
    and_then inspected (fun inspector =>
    and_then (get_table_names inspector) (fun table_names =>
    and_then (schema_parts inspector table_names) (fun schema_parts =>
    inr (join (nl ++ nl) schema_parts))))
  with
  | inr text => text
  | inl e => "Error extracting schema: " ++ e
  end.

(** [get_distinct_values]: [read_sql] is the body of the [try], from the
    text of the query to the values of the column as [str] shows them. *)
Definition get_distinct_values (read_sql : string -> attempt (list string))
           (table_name column_name : string) (limit : nat) : list string :=
  match read_sql ("SELECT DISTINCT " ++ column_name ++ " FROM " ++ table_name
                  ++ " LIMIT " ++ str_of_nat limit) with
  | inr values => values
  | inl _ => []
  end.

(** value_utils.py 37-48: the line of one column. *)
Definition enriched_col_string (read_sql : string -> attempt (list string))
           (table_name : string) (col : Column) : string :=
  let col_type := upper (col_type col) in
  let col_str := "- " ++ col_name col ++ " (" ++ col_type ++ ")" in
  if contains "TEXT" col_type || contains "CHAR" col_type then
    match get_distinct_values read_sql table_name (col_name col) 5 with
    | [] => col_str
    | values => col_str ++ " (Sample Values: " ++ join ", " values ++ ")"
    end
  else col_str.

(** value_utils.py 31-58: the loop over the tables. *)
Fixpoint enriched_parts (read_sql : string -> attempt (list string))
         (inspector : Inspector) (table_names : list string) : attempt (list string) :=
  match table_names with
  | [] => inr []
  | table_name :: rest =>
      and_then (get_columns inspector table_name) (fun columns =>
      let col_lines := map (enriched_col_string read_sql table_name) columns in
      and_then (get_foreign_keys inspector table_name) (fun fks =>
      and_then (fk_strings fks) (fun fk_lines =>
      let table_desc := ("Table: " ++ table_name) :: col_lines ++ fk_lines in
      and_then (enriched_parts read_sql inspector rest) (fun parts =>
      inr (join nl table_desc :: parts)))))
  end.

(** [enrich_schema_with_values]: [inspect(engine)] is outside the [try], so
    its exception goes to the caller; any later one gives the error text
    followed by the schema that was passed in. *)
Definition enrich_schema_with_values (schema_text : string)
           (inspected : attempt Inspector)
           (read_sql : string -> attempt (list string)) : attempt string :=
  and_then inspected (fun inspector =>
  match
    and_then (get_table_names inspector) (fun table_names =>
    and_then (enriched_parts read_sql inspector table_names) (fun enriched_schema =>
    inr (join (nl ++ nl) enriched_schema)))
  with
  | inr text => inr text
  | inl e => inr ("Error enriching schema: " ++ e ++ nl ++ nl ++ schema_text)
  end).

(** The chunks of a text made of table blocks: each block but the last is
    followed by the blank line that separates it from the next. *)
Fixpoint table_chunks (bodies : list string) : list string :=
  match bodies with
  | [] => []
  | body :: rest =>
      match rest with
      | [] => [body]
      | _ :: _ => (body ++ nl ++ nl) :: table_chunks rest
      end
  end.

(** A block begins with the name of its table, alone on its line. *)
Definition headed (name body : string) : Prop :=
  body = name \/ exists rest, body = name ++ nl ++ rest.

(** ** A small database, for examples *)

Definition demo_inspector : Inspector :=
  mkInspector (inr ["customers"; "orders"])
    (fun t => if String.eqb t "customers"
              then inr [mkColumn "id" "INTEGER"; mkColumn "city" "TEXT"]
              else inr [mkColumn "id" "INTEGER"; mkColumn "customer_id" "INTEGER"])
    (fun t => if String.eqb t "orders"
              then inr [mkForeignKey ["customer_id"] "customers" ["id"]]
              else inr []).

Definition demo_read_sql (query : string) : attempt (list string) :=
  if String.eqb query "SELECT DISTINCT city FROM customers LIMIT 5"
  then inr ["Lahore"; "Karachi"]
  else inl "no such column".

(** ** Facts on the string primitives *)

Module PyFacts.

Lemma append_nil_r (s : string) : s ++ "" = s.
Proof. induction s; simpl; congruence. Qed.

Lemma append_assoc (a b c : string) : (a ++ b) ++ c = a ++ b ++ c.
Proof. induction a; simpl; congruence. Qed.

Lemma length_append (a b : string) :
  String.length (a ++ b) = String.length a + String.length b.
Proof. induction a; simpl; congruence. Qed.

Lemma append_eq_nil (a b : string) : a ++ b = "" -> a = "" /\ b = "".
Proof. destruct a; simpl; intros H; [auto | discriminate]. Qed.

Lemma append_inv_head (a b c : string) : a ++ b = a ++ c -> b = c.
Proof. induction a; simpl; intros H; [assumption | injection H; auto]. Qed.

Lemma is_empty_true (s : string) : is_empty s = true <-> s = "".
Proof. destruct s; simpl; split; congruence. Qed.

Lemma is_empty_false (s : string) : is_empty s = false <-> s <> "".
Proof. destruct s; simpl; split; congruence. Qed.

(** Two ways of cutting one string: one cut point lies before the other. *)
Lemma append_eq_append (a b c d : string) :
  a ++ b = c ++ d ->
  (exists m, c = a ++ m /\ b = m ++ d) \/ (exists m, a = c ++ m /\ d = m ++ b).
Proof.
  revert c; induction a as [|x a IH]; intros c H; simpl in H.
  - left; exists c; auto.
  - destruct c as [|y c]; simpl in H.
    + right; exists (String x a); auto.
    + injection H as -> H. destruct (IH _ H) as [[m [-> ->]]|[m [-> ->]]].
      * left; exists m; auto.
      * right; exists m; auto.
Qed.

(** *** Characters *)

Lemma in_all_ascii (c : ascii) : In c all_ascii.
Proof.
  unfold all_ascii. rewrite <- (ascii_nat_embedding c).
  apply in_map, in_seq. pose proof (nat_ascii_bounded c). lia.
Qed.

(** A property of characters that holds by evaluation on all of them. *)
Lemma forall_ascii (P : ascii -> bool) :
  forallb P all_ascii = true -> forall c, P c = true.
Proof.
  intros H c. rewrite forallb_forall in H. apply H, in_all_ascii.
Qed.

Ltac by_all_ascii P c H :=
  let E := fresh "E" in
  assert (E : forallb P all_ascii = true) by (vm_compute; reflexivity);
  pose proof (forall_ascii P E c) as H; cbv beta in H; clear E.

Lemma isspace_not_word (c : ascii) : isspace c = true -> isword c = false.
Proof.
  by_all_ascii (fun c => implb (isspace c) (negb (isword c))) c H.
  destruct (isspace c), (isword c); simpl in *; congruence.
Qed.

Lemma isword_upper (c : ascii) : isword (upper_char c) = isword c.
Proof.
  by_all_ascii (fun c => Bool.eqb (isword (upper_char c)) (isword c)) c H.
  apply Bool.eqb_prop in H. exact H.
Qed.

Lemma isspace_upper (c : ascii) : isspace (upper_char c) = isspace c.
Proof.
  by_all_ascii (fun c => Bool.eqb (isspace (upper_char c)) (isspace c)) c H.
  apply Bool.eqb_prop in H. exact H.
Qed.

Lemma upper_char_idem (c : ascii) : upper_char (upper_char c) = upper_char c.
Proof.
  by_all_ascii (fun c => Ascii.eqb (upper_char (upper_char c)) (upper_char c)) c H.
  apply Ascii.eqb_eq in H. exact H.
Qed.

(** Equality up to case can be read on either mapping. *)
Lemma lower_eq_upper_eq (c d : ascii) :
  Ascii.eqb (lower_char c) (lower_char d) = Ascii.eqb (upper_char c) (upper_char d).
Proof.
  by_all_ascii
    (fun c => forallb (fun d => Bool.eqb (Ascii.eqb (lower_char c) (lower_char d))
                                         (Ascii.eqb (upper_char c) (upper_char d)))
                      all_ascii) c H.
  rewrite forallb_forall in H.
  apply Bool.eqb_prop, H, in_all_ascii.
Qed.

Lemma startswith_spec (s p : string) :
  startswith s p = true <-> exists r, s = p ++ r.
Proof.
  revert s; induction p as [|a p IH]; intros s; simpl.
  - split; [exists s; reflexivity | reflexivity].
  - destruct s as [|b s].
    + split; [discriminate | intros [r H]; discriminate].
    + rewrite andb_true_iff, Ascii.eqb_eq, IH. split.
      * intros [-> [r ->]]. exists r; reflexivity.
      * intros [r H]. injection H as -> ->. split; [reflexivity | exists r; reflexivity].
Qed.

Lemma startswith_append (p r : string) : startswith (p ++ r) p = true.
Proof. apply startswith_spec. exists r; reflexivity. Qed.

Lemma contains_spec (p s : string) : contains p s = true <-> infix p s.
Proof.
  unfold infix. induction s as [|c s IH]; simpl.
  - rewrite orb_false_r, startswith_spec. split.
    + intros [r H]. exists "", r. exact H.
    + intros [a [b H]]. symmetry in H.
      apply append_eq_nil in H as [-> H]. simpl in H. exists b. symmetry; exact H.
  - rewrite orb_true_iff, startswith_spec, IH. split.
    + intros [[r H]|[a [b H]]].
      * exists "", r. exact H.
      * exists (String c a), b. simpl. rewrite H. reflexivity.
    + intros [a [b H]]. destruct a as [|x a]; simpl in H.
      * left. exists b. exact H.
      * right. injection H as _ H. exists a, b. exact H.
Qed.

Lemma contains_false (p s : string) : contains p s = false <-> ~ infix p s.
Proof.
  rewrite <- contains_spec. destruct (contains p s); split; congruence.
Qed.

Lemma infix_refl (s : string) : infix s s.
Proof. exists "", "". simpl. rewrite append_nil_r. reflexivity. Qed.

Lemma infix_trans (a b c : string) : infix a b -> infix b c -> infix a c.
Proof.
  intros [x [y ->]] [u [v ->]]. exists (u ++ x), (y ++ v).
  rewrite !append_assoc. reflexivity.
Qed.

Lemma infix_append_l (t a b : string) : infix t a -> infix t (a ++ b).
Proof.
  intros [x [y ->]]. exists x, (y ++ b). rewrite !append_assoc. reflexivity.
Qed.

Lemma infix_append_r (t a b : string) : infix t b -> infix t (a ++ b).
Proof.
  intros [x [y ->]]. exists (a ++ x), y. rewrite !append_assoc. reflexivity.
Qed.

(** *** Slices *)

Lemma take_drop (n : nat) (s : string) : take n s ++ drop n s = s.
Proof.
  revert s; induction n as [|n IH]; intros [|c s]; simpl; try reflexivity.
  rewrite IH. reflexivity.
Qed.

Lemma length_take (n : nat) (s : string) :
  String.length (take n s) = Nat.min n (String.length s).
Proof.
  revert s; induction n as [|n IH]; intros [|c s]; simpl; try reflexivity.
  rewrite IH. reflexivity.
Qed.

Lemma take_append (a b : string) (k : nat) :
  take (String.length a + k) (a ++ b) = a ++ take k b.
Proof. induction a as [|c a IH]; simpl; [reflexivity | rewrite IH; reflexivity]. Qed.

Lemma drop_append (a b : string) : drop (String.length a) (a ++ b) = b.
Proof. induction a as [|c a IH]; simpl; [destruct b; reflexivity | exact IH]. Qed.

Lemma infix_take (n : nat) (s : string) : infix (take n s) s.
Proof. exists "", (drop n s). simpl. symmetry; apply take_drop. Qed.

Lemma infix_drop (n : nat) (s : string) : infix (drop n s) s.
Proof.
  exists (take n s), "". rewrite append_nil_r. symmetry; apply take_drop.
Qed.

Lemma infix_slice_from (s : string) (i : Z) : infix (slice_from s i) s.
Proof. apply infix_drop. Qed.

Lemma infix_slice_to (s : string) (i : Z) : infix (slice_to s i) s.
Proof. apply infix_take. Qed.

(** [s[:-1]] is [s] without its last character. *)
Lemma slice_to_minus_one (s : string) :
  slice_to s (-1) = take (String.length s - 1) s.
Proof.
  unfold slice_to, clip. simpl. f_equal. lia.
Qed.

Lemma semicolon_inside_spec (t : string) :
  contains ";" (slice_to t (-1)) = true <-> semicolon_inside t.
Proof.
  rewrite slice_to_minus_one, contains_spec. unfold infix, semicolon_inside. split.
  - intros [a [b H]].
    pose proof (take_drop (String.length t - 1) t) as E.
    assert (L : String.length (take (String.length t - 1) t) = String.length t - 1)
      by (rewrite length_take; lia).
    assert (N : String.length t <> 0).
    { intros Z. rewrite H in L. rewrite !length_append in L. simpl in L. lia. }
    exists a, (b ++ drop (String.length t - 1) t). split.
    + rewrite <- E at 1. rewrite H. rewrite !append_assoc. reflexivity.
    + intros Z. apply append_eq_nil in Z as [_ Z].
      apply (f_equal String.length) in E. rewrite length_append, L, Z in E.
      simpl in E. lia.
  - intros [a [b [-> N]]].
    exists a, (take (String.length b - 1) b).
    replace (String.length (a ++ ";" ++ b) - 1)
      with (String.length a + (1 + (String.length b - 1))).
    + rewrite take_append. reflexivity.
    + rewrite !length_append. simpl. destruct b; [congruence | simpl; lia].
Qed.
(** *** Trimming *)

Lemma lstrip_decomp (s : string) :
  exists ws, s = ws ++ lstrip s /\ blank ws = true.
Proof.
  induction s as [|c s [ws [E B]]]; simpl.
  - exists ""; auto.
  - destruct (isspace c) eqn:Hc.
    + exists (String c ws). simpl. rewrite Hc, B, <- E. auto.
    + exists "". auto.
Qed.

Lemma rstrip_decomp (s : string) :
  exists ws, s = rstrip s ++ ws /\ blank ws = true.
Proof.
  induction s as [|c s [ws [E B]]]; simpl.
  - exists ""; auto.
  - destruct (isspace c) eqn:Hc; simpl.
    + destruct (rstrip s) eqn:Hr; simpl.
      * exists (String c ws). simpl. rewrite Hc, B. simpl in E. rewrite <- E. auto.
      * exists ws. simpl. simpl in E. rewrite <- E. auto.
    + exists ws. simpl. rewrite <- E. auto.
Qed.

Lemma strip_decomp (s : string) :
  exists a b, s = a ++ strip s ++ b /\ blank a = true /\ blank b = true.
Proof.
  destruct (lstrip_decomp s) as [a [Ea Ba]].
  destruct (rstrip_decomp (lstrip s)) as [b [Eb Bb]].
  exists a, b. unfold strip. rewrite <- Eb. auto.
Qed.

Lemma infix_strip (s : string) : infix (strip s) s.
Proof. destruct (strip_decomp s) as [a [b [E _]]]. exists a, b. exact E. Qed.

Lemma strip_empty (s : string) : is_empty s = true -> strip s = "".
Proof. intros H. apply is_empty_true in H. subst. reflexivity. Qed.

Lemma lstrip_append (a r : string) (c : ascii) :
  head r = Some c -> isspace c = false -> lstrip (a ++ r) = lstrip a ++ r.
Proof.
  intros Hh Hc. induction a as [|x a IH]; simpl.
  - destruct r as [|y r]; [discriminate|]. simpl in *.
    injection Hh as ->. rewrite Hc. reflexivity.
  - destruct (isspace x); [exact IH | reflexivity].
Qed.

Lemma rstrip_append (r b : string) (c : ascii) :
  last_char None r = Some c -> isspace c = false -> rstrip (r ++ b) = r ++ rstrip b.
Proof.
  intros Hl Hc. induction r as [|x r IH]; [discriminate|].
  simpl in Hl. simpl. destruct r as [|y r].
  - simpl in *. injection Hl as ->. rewrite Hc. reflexivity.
  - rewrite (IH Hl). simpl. rewrite andb_false_r. reflexivity.
Qed.

Lemma last_char_append (p : option ascii) (a b : string) :
  last_char p (a ++ b) = last_char (last_char p a) b.
Proof. revert p; induction a as [|x a IH]; intros p; simpl; auto. Qed.

Lemma word_at_last_char (p q : option ascii) (s : string) :
  word_at p = word_at q -> word_at (last_char p s) = word_at (last_char q s).
Proof. destruct s; simpl; auto. Qed.

Lemma word_at_last_lstrip (p : option ascii) (a : string) :
  word_at p = false ->
  word_at (last_char p (lstrip a)) = word_at (last_char p a).
Proof.
  revert p; induction a as [|x a IH]; intros p Hp; simpl; [reflexivity|].
  destruct (isspace x) eqn:Hx; [|reflexivity].
  rewrite (IH p Hp). apply word_at_last_char.
  simpl. rewrite Hp. symmetry. apply isspace_not_word, Hx.
Qed.

Lemma word_at_head_rstrip (b : string) :
  word_at (head (rstrip b)) = word_at (head b).
Proof.
  destruct b as [|x b]; simpl; [reflexivity|].
  destruct (isspace x) eqn:Hx; simpl; [|reflexivity].
  destruct (rstrip b); simpl; [|reflexivity].
  symmetry. apply isspace_not_word, Hx.
Qed.

(** *** Case mapping *)

Lemma upper_append (a b : string) : upper (a ++ b) = upper a ++ upper b.
Proof. unfold upper. induction a as [|x a IH]; simpl; [reflexivity | rewrite IH; reflexivity]. Qed.

Lemma upper_idem (s : string) : upper (upper s) = upper s.
Proof.
  unfold upper. induction s as [|x s IH]; simpl; [reflexivity|].
  rewrite upper_char_idem, IH. reflexivity.
Qed.

Lemma length_upper (s : string) : String.length (upper s) = String.length s.
Proof. unfold upper. induction s as [|x s IH]; simpl; auto. Qed.

(** A cut of [upper s] is the image of a cut of [s]. *)
Lemma upper_eq_append (s x y : string) :
  upper s = x ++ y -> exists x0 y0, s = x0 ++ y0 /\ upper x0 = x /\ upper y0 = y.
Proof.
  revert x; induction s as [|c s IH]; intros x H.
  - symmetry in H. apply append_eq_nil in H as [-> ->]. exists "", "". auto.
  - destruct x as [|d x]; simpl in H.
    + exists "", (String c s). auto.
    + unfold upper in H. simpl in H. injection H as <- H.
      destruct (IH _ H) as [x0 [y0 [-> [<- <-]]]].
      exists (String c x0), y0. auto.
Qed.

Lemma word_at_head_upper (s : string) : word_at (head (upper s)) = word_at (head s).
Proof. destruct s; simpl; [reflexivity | apply isword_upper]. Qed.

Lemma word_at_last_upper (p : option ascii) (s : string) :
  word_at (last_char p (upper s)) = word_at (last_char p s).
Proof.
  revert p; induction s as [|c s IH]; intros p; simpl; [reflexivity|].
  rewrite IH. apply word_at_last_char. simpl. apply isword_upper.
Qed.

Lemma infix_upper (t s : string) : infix t s -> infix (upper t) (upper s).
Proof.
  intros [a [b ->]]. exists (upper a), (upper b). rewrite !upper_append. reflexivity.
Qed.

End PyFacts.

Import PyFacts.

Module ReFacts.

(** *** The matcher *)

Lemma lit_all_exact (w m : string) : lit_all false w m = true <-> m = w.
Proof.
  revert m; induction w as [|c w IH]; intros [|d m]; simpl;
    try (split; congruence).
  rewrite andb_true_iff, Ascii.eqb_eq, IH. split.
  - intros [-> ->]; reflexivity.
  - intros H; injection H as -> ->; auto.
Qed.

Lemma lit_all_nocase (w m : string) : lit_all true w m = true <-> same_word w m.
Proof.
  unfold same_word, upper.
  revert m; induction w as [|c w IH]; intros [|d m]; simpl;
    try (split; congruence).
  rewrite andb_true_iff, lower_eq_upper_eq, Ascii.eqb_eq, IH. split.
  - intros [-> ->]; reflexivity.
  - intros H; injection H as -> ->; auto.
Qed.

Lemma lits_match (ic : bool) (w : string) (p : pattern) (prev : option ascii) (s : string) :
  match_here ic (lits w ++ p)%list prev s = true <->
  exists m r, s = m ++ r /\ lit_all ic w m = true /\
              match_here ic p (last_char prev m) r = true.
Proof.
  revert prev s; induction w as [|c w IH]; intros prev s; simpl.
  - split.
    + intros H. exists "", s. auto.
    + intros [m [r [-> [L H]]]]. destruct m; [exact H | discriminate].
  - destruct s as [|d s].
    + split; [discriminate|]. intros [m [r [E [L _]]]].
      symmetry in E. apply append_eq_nil in E as [-> _]. discriminate.
    + rewrite andb_true_iff, IH. split.
      * intros [Hc [m [r [-> [L H]]]]]. exists (String d m), r. simpl.
        rewrite Hc, L. auto.
      * intros [m [r [E [L H]]]]. destruct m as [|d' m]; [discriminate|].
        simpl in E, L, H. injection E as -> ->.
        apply andb_true_iff in L as [Hc L]. split; [exact Hc|].
        exists m, r. auto.
Qed.

Lemma match_star_unfold (ic : bool) (p : pattern) (prev : option ascii) (s : string) :
  match_here ic (SpaceStar :: p) prev s =
  match s with
  | EmptyString => false
  | String d s' => isspace d && match_here ic (SpaceStar :: p) (Some d) s'
  end || match_here ic p prev s.
Proof. destruct s; reflexivity. Qed.

Lemma star_match (ic : bool) (p : pattern) (prev : option ascii) (s : string) :
  match_here ic (SpaceStar :: p) prev s = true <->
  exists ws r, s = ws ++ r /\ blank ws = true /\
               match_here ic p (last_char prev ws) r = true.
Proof.
  revert prev; induction s as [|d s IH]; intros prev; rewrite match_star_unfold.
  - simpl. split.
    + intros H. exists "", "". auto.
    + intros [ws [r [E [_ H]]]]. symmetry in E.
      apply append_eq_nil in E as [-> ->]. exact H.
  - rewrite orb_true_iff, andb_true_iff, IH. split.
    + intros [[Hd [ws [r [-> [B H]]]]]|H].
      * exists (String d ws), r. simpl. rewrite Hd, B. auto.
      * exists "", (String d s). auto.
    + intros [ws [r [E [B H]]]]. destruct ws as [|x ws]; simpl in *.
      * subst r. right. exact H.
      * injection E as -> ->. apply andb_true_iff in B as [Hd B].
        left. split; [exact Hd|]. exists ws, r. auto.
Qed.

Lemma search_spec (ic : bool) (p : pattern) (prev : option ascii) (s : string) :
  search_from ic p prev s = true <->
  exists a r, s = a ++ r /\ match_here ic p (last_char prev a) r = true.
Proof.
  revert prev; induction s as [|c s IH]; intros prev; simpl.
  - rewrite orb_false_r. split.
    + intros H. exists "", "". auto.
    + intros [a [r [E H]]]. symmetry in E.
      apply append_eq_nil in E as [-> ->]. exact H.
  - rewrite orb_true_iff, IH. split.
    + intros [H|[a [r [-> H]]]].
      * exists "", (String c s). auto.
      * exists (String c a), r. auto.
    + intros [a [r [E H]]]. destruct a as [|x a]; simpl in *.
      * subst r. left. exact H.
      * injection E as -> ->. right. exists a, r. auto.
Qed.

(** [re.match(r'^\s*SELECT', t, re.IGNORECASE)] *)
Lemma select_match_spec (t : string) :
  re_match IGNORECASE select_pattern t = true <-> begins_with_select t.
Proof.
  unfold re_match, select_pattern, begins_with_select.
  change (match_here IGNORECASE (Bol :: SpaceStar :: lits "SELECT") None t)
    with (match_here IGNORECASE (SpaceStar :: lits "SELECT") None t).
  rewrite star_match. split.
  - intros [ws [r [-> [B H]]]].
    rewrite <- (app_nil_r (lits "SELECT")) in H.
    apply lits_match in H as [m [r' [-> [L _]]]].
    exists ws, m, r'. rewrite <- lit_all_nocase. auto.
  - intros [ws [m [r [-> [B W]]]]]. exists ws, (m ++ r). repeat split; auto.
    rewrite <- (app_nil_r (lits "SELECT")).
    apply lits_match. exists m, r. rewrite lit_all_nocase. auto.
Qed.

(** *** Keywords *)

Lemma last_char_nonempty (p q : option ascii) (s : string) :
  s <> "" -> last_char p s = last_char q s.
Proof. destruct s; simpl; congruence. Qed.

Lemma word_match_spec (kw : string) (prev : option ascii) (r : string) :
  keyword_ok kw ->
  match_here NOFLAGS (word_pattern kw) prev r = true <->
  exists b, r = kw ++ b /\ word_at prev = false /\ word_at (head b) = false.
Proof.
  intros [_ [Hh Hl]].
  assert (N : kw <> "") by (intros ->; discriminate).
  unfold word_pattern.
  change (match_here NOFLAGS (WordB :: (lits kw ++ [WordB])%list) prev r)
    with (boundary prev (head r) && match_here NOFLAGS (lits kw ++ [WordB])%list prev r).
  rewrite andb_true_iff, lits_match. split.
  - intros [Hb [m [b [-> [L H]]]]]. apply lit_all_exact in L. subst m.
    exists b. split; [reflexivity|].
    simpl in H. rewrite andb_true_r in H. unfold boundary in *.
    rewrite (last_char_nonempty prev None kw N), Hl in H.
    destruct kw as [|c kw]; [congruence|]. simpl in Hb, Hh. rewrite Hh in Hb.
    destruct (word_at prev), (word_at (head b)); simpl in *; auto; discriminate.
  - intros [b [-> [Hp Hb]]]. split.
    + destruct kw as [|c kw]; [congruence|]. simpl in *. unfold boundary.
      simpl. rewrite Hp, Hh. reflexivity.
    + exists kw, b. split; [reflexivity|]. split; [apply lit_all_exact; reflexivity|].
      simpl. unfold boundary.
      rewrite (last_char_nonempty prev None kw N), Hl, Hb. reflexivity.
Qed.

(** [re.search(r'\b' + keyword + r'\b', query.upper())] finds the whole
    words of [query]. *)
Lemma word_search_spec (kw t : string) :
  keyword_ok kw ->
  re_search NOFLAGS (word_pattern kw) (upper t) = true <-> whole_word kw t.
Proof.
  intros K. unfold re_search, whole_word. rewrite search_spec. split.
  - intros [a [r [E H]]]. apply (word_match_spec kw _ r K) in H as [b [-> [Ha Hb]]].
    apply upper_eq_append in E as [a0 [r0 [-> [<- E]]]].
    apply upper_eq_append in E as [m0 [b0 [-> [Em <-]]]].
    exists a0, m0, b0. split; [reflexivity|]. split.
    + unfold same_word. destruct K as [-> _]. exact Em.
    + rewrite word_at_last_upper in Ha. rewrite word_at_head_upper in Hb. auto.
  - intros [a [m [b [-> [W [Ha Hb]]]]]].
    exists (upper a), (upper (m ++ b)). split; [apply upper_append|].
    apply (word_match_spec kw _ _ K). exists (upper b).
    rewrite word_at_last_upper, word_at_head_upper, upper_append.
    unfold same_word in W. destruct K as [Ek _]. rewrite W, Ek. auto.
Qed.

Lemma prohibited_keywords_ok : Forall keyword_ok prohibited_keywords.
Proof. repeat constructor. Qed.

Lemma keyword_in_ok (kw : string) : In kw prohibited_keywords -> keyword_ok kw.
Proof. apply Forall_forall, prohibited_keywords_ok. Qed.

Lemma first_prohibited_none (kws : list string) (u : string) :
  first_prohibited kws u = None <->
  forall kw, In kw kws -> re_search NOFLAGS (word_pattern kw) u = false.
Proof.
  induction kws as [|k kws IH]; simpl.
  - split; [intros _ kw [] | reflexivity].
  - destruct (re_search NOFLAGS (word_pattern k) u) eqn:Hk.
    + split; [discriminate|]. intros H. rewrite (H k) in Hk; [discriminate | auto].
    + rewrite IH. split.
      * intros H kw [<-|Hin]; auto.
      * intros H kw Hin. apply H. auto.
Qed.

Lemma first_prohibited_some (kws : list string) (u k : string) :
  first_prohibited kws u = Some k <->
  exists before after,
    kws = (before ++ k :: after)%list /\
    re_search NOFLAGS (word_pattern k) u = true /\
    forall kw, In kw before -> re_search NOFLAGS (word_pattern kw) u = false.
Proof.
  induction kws as [|k0 kws IH]; simpl.
  - split; [discriminate|]. intros [before [after [E _]]].
    destruct before; discriminate.
  - destruct (re_search NOFLAGS (word_pattern k0) u) eqn:Hk.
    + split.
      * intros H. injection H as <-. exists [], kws. repeat split; auto.
        intros kw [].
      * intros [before [after [E [Hs Hb]]]]. destruct before as [|b before].
        -- simpl in E. injection E as -> _. reflexivity.
        -- simpl in E. injection E as -> _. rewrite (Hb b) in Hk; [discriminate|].
           left; reflexivity.
    + rewrite IH. split.
      * intros [before [after [-> [Hs Hb]]]]. exists (k0 :: before), after.
        repeat split; auto. intros kw [<-|Hin]; auto.
      * intros [before [after [E [Hs Hb]]]]. destruct before as [|b before].
        -- simpl in E. injection E as -> _. congruence.
        -- simpl in E. injection E as -> ->. exists before, after.
           repeat split; auto. intros kw Hin. apply Hb. right; exact Hin.
Qed.

End ReFacts.

Import ReFacts.

Module SplitFacts.

(** *** Splitting *)

Lemma split_go_nonempty (sep : string) (skip : nat) (s : string) :
  split_go sep skip s <> [].
Proof.
  revert skip; induction s as [|c s IH]; intros skip; simpl; [discriminate|].
  destruct skip; [|apply IH].
  destruct (startswith (String c s) sep); [discriminate|].
  destruct (split_go sep 0 s); discriminate.
Qed.

Lemma split_go_skip (sep x b : string) :
  split_go sep (String.length x) (x ++ b) = split_go sep 0 b.
Proof. induction x as [|c x IH]; simpl; [reflexivity | exact IH]. Qed.

(** A string that starts with the separator: an empty first piece. *)
Lemma split_startswith (sep b : string) :
  sep <> "" -> split (sep ++ b) sep = "" :: split b sep.
Proof.
  intros N. destruct sep as [|c sep]; [congruence|].
  unfold split. cbn [append split_go].
  change (String c (sep ++ b)) with (String c sep ++ b).
  rewrite startswith_append.
  replace (String.length (String c sep) - 1) with (String.length sep)
    by (simpl; lia).
  rewrite split_go_skip. reflexivity.
Qed.

Lemma split_cons_miss (sep : string) (c : ascii) (s : string) :
  startswith (String c s) sep = false ->
  exists piece rest,
    split s sep = piece :: rest /\ split (String c s) sep = String c piece :: rest.
Proof.
  intros H. unfold split. cbn [split_go]. rewrite H.
  destruct (split_go sep 0 s) as [|piece rest] eqn:E.
  - elim (split_go_nonempty _ _ _ E).
  - exists piece, rest. auto.
Qed.

Lemma first_cut_nil (sep a b : string) : first_cut sep (sep ++ b) "" b.
Proof. split; [reflexivity | intros; simpl; lia]. Qed.

Lemma first_cut_cons (sep : string) (c : ascii) (s a b : string) :
  startswith (String c s) sep = false ->
  first_cut sep s a b -> first_cut sep (String c s) (String c a) b.
Proof.
  intros H [E L]. split; [rewrite E; reflexivity|].
  intros x y Exy. destruct x as [|d x].
  - simpl in Exy. rewrite Exy, startswith_append in H. discriminate.
  - simpl in Exy. injection Exy as _ Exy. simpl. apply le_n_S, (L x y Exy).
Qed.

Lemma first_cut_tail (sep : string) (c : ascii) (a b : string) :
  first_cut sep (String c a ++ sep ++ b) (String c a) b ->
  startswith (String c a ++ sep ++ b) sep = false /\
  first_cut sep (a ++ sep ++ b) a b.
Proof.
  intros [_ L]. split.
  - destruct (startswith (String c a ++ sep ++ b) sep) eqn:H; [|reflexivity].
    apply startswith_spec in H as [r H]. specialize (L "" r H). simpl in L. lia.
  - split; [reflexivity|]. intros x y E.
    specialize (L (String c x) y). simpl in L. rewrite E in L.
    specialize (L eq_refl). lia.
Qed.

(** The first piece is the text before the first separator; the other
    pieces are those of the text after it. *)
Lemma split_first_cut (sep s a b : string) :
  sep <> "" -> first_cut sep s a b -> split s sep = a :: split b sep.
Proof.
  intros N. revert s; induction a as [|c a IH]; intros s H.
  - destruct H as [-> _]. cbn [append]. apply split_startswith, N.
  - pose proof H as [E _]. subst s.
    apply first_cut_tail in H as [Hs H].
    change (String c a ++ sep ++ b) with (String c (a ++ sep ++ b)) in Hs.
    destruct (split_cons_miss sep c _ Hs) as [piece [rest [E1 E2]]].
    change (String c a ++ sep ++ b) with (String c (a ++ sep ++ b)).
    rewrite E2. rewrite (IH _ H) in E1.
    injection E1 as <- <-. reflexivity.
Qed.

Lemma first_cut_exists (sep s : string) :
  infix sep s -> exists a b, first_cut sep s a b.
Proof.
  induction s as [|c s IH]; intros H.
  - destruct H as [a [b H]]. symmetry in H.
    apply append_eq_nil in H as [-> H]. apply append_eq_nil in H as [-> ->].
    exists "", "". apply (first_cut_nil "" "" "").
  - destruct (startswith (String c s) sep) eqn:Hs.
    + apply startswith_spec in Hs as [r ->]. exists "", r. apply first_cut_nil; exact "".
    + assert (H' : infix sep s).
      { destruct H as [a [b H]]. destruct a as [|d a]; simpl in H.
        - rewrite H, startswith_append in Hs. discriminate.
        - injection H as _ H. exists a, b. exact H. }
      destruct (IH H') as [a [b F]]. exists (String c a), b.
      apply first_cut_cons; assumption.
Qed.

(** No separator: one piece, the string itself. *)
Lemma split_none (sep s : string) : ~ infix sep s -> split s sep = [s].
Proof.
  induction s as [|c s IH]; intros H; [reflexivity|].
  assert (Hs : startswith (String c s) sep = false).
  { destruct (startswith (String c s) sep) eqn:E; [|reflexivity].
    elim H. apply startswith_spec in E as [r E]. exists "", r. exact E. }
  destruct (split_cons_miss sep c s Hs) as [piece [rest [E1 E2]]].
  rewrite E2. rewrite IH in E1.
  - injection E1 as <- <-. reflexivity.
  - intros [a [b E]]. apply H. exists (String c a), b. rewrite E. reflexivity.
Qed.

Lemma first_cut_of_split (sep s a b : string) (rest : list string) :
  sep <> "" -> split s sep = a :: rest -> s = a ++ sep ++ b -> first_cut sep s a b.
Proof.
  intros N E Es.
  destruct (first_cut_exists sep s) as [a' [b' F]]; [exists a, b; exact Es|].
  rewrite (split_first_cut _ _ _ _ N F) in E. injection E as -> _.
  destruct F as [E' L]. rewrite Es in E'.
  apply append_inv_head, append_inv_head in E'. subst b'.
  split; [exact Es | exact L].
Qed.

(** At least two pieces when the separator occurs. *)
Lemma split_two (sep s : string) :
  sep <> "" -> infix sep s ->
  exists p0 p1 rest, split s sep = p0 :: p1 :: rest.
Proof.
  intros N H. destruct (first_cut_exists sep s H) as [a [b F]].
  rewrite (split_first_cut _ _ _ _ N F).
  destruct (split b sep) as [|p1 rest] eqn:E; [elim (split_go_nonempty _ _ _ E)|].
  exists a, p1, rest. reflexivity.
Qed.

(** Every piece is a part of the string. *)
Lemma split_infix (sep : string) (n : nat) (s p : string) :
  sep <> "" -> String.length s <= n -> In p (split s sep) -> infix p s.
Proof.
  intros N. revert s p; induction n as [|n IH]; intros s p L Hp.
  - destruct s; [|simpl in L; lia]. destruct Hp as [<-|[]]. apply infix_refl.
  - destruct (contains sep s) eqn:C.
    + apply contains_spec in C. destruct (first_cut_exists sep s C) as [a [b F]].
      rewrite (split_first_cut _ _ _ _ N F) in Hp. destruct F as [-> _].
      destruct Hp as [<-|Hp].
      * exists "", (sep ++ b). reflexivity.
      * apply infix_append_r, infix_append_r, (IH b p); [|exact Hp].
        rewrite !length_append in L. destruct sep; [congruence|]. simpl in L. lia.
    + apply contains_false in C. rewrite (split_none _ _ C) in Hp.
      destruct Hp as [<-|[]]. apply infix_refl.
Qed.

Lemma split_pieces (sep s p : string) :
  sep <> "" -> In p (split s sep) -> infix p s.
Proof. intros N. apply (split_infix sep (String.length s) s p N (le_n _)). Qed.

(** *** Joining *)

(** A text without the character [c] that occurs in [a ++ c :: b] occurs
    on one side of [c]. *)
Lemma infix_cut (t a b : string) (c : ascii) :
  ~ infix (String c "") t -> infix t (a ++ String c b) -> infix t a \/ infix t b.
Proof.
  intros Hc [x [y E]].
  destruct (append_eq_append _ _ _ _ E) as [[m [Ex Eb]]|[m [Ea Ey]]].
  - (* the cut point lies in x *)
    destruct m as [|d m]; simpl in Eb.
    + rewrite append_nil_r in Ex. subst x.
      destruct t as [|d t]; simpl in Eb.
      * left. exists a, "". rewrite append_nil_r. reflexivity.
      * injection Eb as <- _. elim Hc. exists "", t. reflexivity.
    + injection Eb as <- ->. right. exists m, y. reflexivity.
  - (* the cut point lies in t ++ y *)
    destruct (append_eq_append _ _ _ _ Ey) as [[m' [Em Ey']]|[m' [Et Eb]]].
    + left. subst a m. exists x, m'. reflexivity.
    + destruct m' as [|d m']; simpl in Eb.
      * rewrite append_nil_r in Et. subst t a. left. exists x, "".
        rewrite append_nil_r. reflexivity.
      * injection Eb as <- _. elim Hc. subst t.
        exists m, m'. reflexivity.
Qed.

Lemma join_cons (sep x : string) (y : string) (l : list string) :
  join sep (x :: y :: l) = x ++ sep ++ join sep (y :: l).
Proof. reflexivity. Qed.

Lemma infix_join (t g : string) (lines : list string) :
  ~ infix nl t ->
  (forall l, In l lines -> infix l g) ->
  infix t (join nl lines) -> infix t g.
Proof.
  intros Ht. induction lines as [|x lines IH]; intros Hl H.
  - destruct H as [a [b H]]. symmetry in H.
    apply append_eq_nil in H as [_ H]. apply append_eq_nil in H as [-> _].
    exists "", g. reflexivity.
  - destruct lines as [|y lines].
    + simpl in H. apply (infix_trans _ _ _ H). apply Hl. left; reflexivity.
    + rewrite join_cons in H. apply infix_cut in H; [|exact Ht].
      destruct H as [H|H].
      * apply (infix_trans _ _ _ H). apply Hl. left; reflexivity.
      * apply IH; [|exact H]. intros l Hin. apply Hl. right; exact Hin.
Qed.

End SplitFacts.

Import SplitFacts.

(** ** The validator *)

Lemma last_char_some (p : option ascii) (s : string) :
  s <> "" -> exists c, last_char p s = Some c.
Proof.
  revert p; induction s as [|x s IH]; intros p N; [congruence|].
  simpl. destruct s as [|y s]; [exists x; reflexivity|].
  apply IH. discriminate.
Qed.

Lemma whole_word_strip (kw q : string) :
  keyword_ok kw -> whole_word kw q -> whole_word kw (strip q).
Proof.
  intros [Ek [Hh Hl]] [a [m [b [-> [W [Ha Hb]]]]]].
  unfold same_word in W. rewrite Ek in W.
  assert (Hm : exists c, head m = Some c /\ isspace c = false).
  { destruct m as [|c m]; [subst kw; discriminate|]. exists c. split; [reflexivity|].
    subst kw. simpl in Hh. rewrite isword_upper in Hh.
    destruct (isspace c) eqn:Hc; [|reflexivity].
    apply isspace_not_word in Hc. congruence. }
  assert (Hm' : exists c, last_char None m = Some c /\ isspace c = false).
  { assert (N : m <> "") by (intros ->; subst kw; discriminate).
    destruct (last_char_some None m N) as [c E].
    exists c. split; [exact E|].
    assert (Hw : word_at (last_char None m) = true)
      by (rewrite <- word_at_last_upper, W; exact Hl).
    rewrite E in Hw. simpl in Hw.
    destruct (isspace c) eqn:Hc; [|reflexivity].
    apply isspace_not_word in Hc. congruence. }
  destruct Hm as [c [Hc Sc]]. destruct Hm' as [c' [Hc' Sc']].
  assert (H1 : head (m ++ b) = Some c) by (destruct m; [discriminate | exact Hc]).
  unfold strip. rewrite (lstrip_append a (m ++ b) c H1 Sc).
  rewrite <- append_assoc.
  assert (H2 : last_char None (lstrip a ++ m) = Some c').
  { rewrite last_char_append, (last_char_nonempty _ None); [exact Hc'|].
    intros ->; discriminate. }
  rewrite (rstrip_append _ b c' H2 Sc').
  exists (lstrip a), m, (rstrip b). split; [apply append_assoc|].
  split; [unfold same_word; congruence|].
  rewrite word_at_last_lstrip by reflexivity. rewrite word_at_head_rstrip. auto.
Qed.

Lemma validate_sql_true (query : string) :
  fst (validate_sql query) = true <-> spec_valid query.
Proof.
  unfold validate_sql, spec_valid.
  destruct (is_empty query) eqn:E0.
  { rewrite (strip_empty _ E0). cbn [fst]. split; [discriminate | intros [N _]; congruence]. }
  set (t := strip query).
  destruct (is_empty t) eqn:E1.
  { apply is_empty_true in E1. cbn [fst]. split; [discriminate | intros [N _]; congruence]. }
  apply is_empty_false in E1.
  destruct (contains ";" (slice_to t (-1))) eqn:E2.
  { apply semicolon_inside_spec in E2. cbn [fst].
    split; [discriminate | intros [_ [_ [N _]]]; contradiction]. }
  assert (S2 : ~ semicolon_inside t).
  { rewrite <- semicolon_inside_spec. congruence. }
  destruct (re_match IGNORECASE select_pattern t) eqn:E3; cbn [fst].
  2:{ split; [discriminate|]. intros [_ [B _]].
      apply select_match_spec in B. congruence. }
  apply select_match_spec in E3.
  destruct (first_prohibited prohibited_keywords (upper t)) as [k|] eqn:E4.
  { apply first_prohibited_some in E4 as [before [after [El [Hs _]]]].
    assert (Hin : In k prohibited_keywords) by (rewrite El; apply in_elt).
    apply (word_search_spec k t (keyword_in_ok k Hin)) in Hs.
    cbn [fst]. split; [discriminate|]. intros [_ [_ [_ [K _]]]]. elim (K k Hin Hs). }
  assert (S4 : forall kw, In kw prohibited_keywords -> ~ whole_word kw t).
  { intros kw Hin W. apply (word_search_spec kw t (keyword_in_ok kw Hin)) in W.
    rewrite first_prohibited_none in E4. rewrite (E4 kw Hin) in W. discriminate. }
  destruct (contains "--" t) eqn:E5; cbn [fst].
  { apply contains_spec in E5. split; [discriminate|].
    intros [_ [_ [_ [_ [N _]]]]]. contradiction. }
  apply contains_false in E5.
  destruct (contains "/*" t) eqn:E6; cbn [fst].
  { apply contains_spec in E6. split; [discriminate|].
    intros [_ [_ [_ [_ [_ N]]]]]. contradiction. }
  apply contains_false in E6.
  split; [intros _ | reflexivity]. repeat split; assumption.
Qed.

(** C1.  [validate_sql] answers valid exactly when the trimmed query is not
    empty, begins with SELECT in any letter case (possibly after white
    space), has no semicolon except possibly as its final character, has no
    denylisted keyword as a whole word in any letter case, and has neither
    a double dash nor a comment opener.  In particular the queries
    SELECT * FROM t; and select 1 are valid, the empty query is rejected as
    empty, and SELECT 1 -- comment is rejected for its comment. *)
Theorem validate_sql_valid_iff :
  (forall query, fst (validate_sql query) = true <-> spec_valid query) /\
  validate_sql "SELECT * FROM t;" = (true, "Valid SQL") /\
  validate_sql "select 1" = (true, "Valid SQL") /\
  validate_sql "" = (false, "Query is empty.") /\
  validate_sql "SELECT 1 -- comment" = (false, "SQL comments are not allowed.").
Proof.
  split; [exact validate_sql_true|]. repeat split; vm_compute; reflexivity.
Qed.

(** C2, amended.  Every query whose trimmed form has a semicolon before its
    final character is rejected with the multiple-statements reason.  (The
    test is made after trimming: white space after a final semicolon does
    not count.) *)
Theorem validate_sql_semicolon_inside (query : string) :
  semicolon_inside (strip query) ->
  validate_sql query =
  (false, "Multiple statements are not allowed (semicolon detected in middle of query).").
Proof.
  intros H. unfold validate_sql.
  assert (N : strip query <> "").
  { destruct H as [a [b [E _]]]. rewrite E. destruct a; discriminate. }
  destruct (is_empty query) eqn:E0.
  { elim N. apply strip_empty, E0. }
  apply is_empty_false in N. rewrite N.
  apply semicolon_inside_spec in H. rewrite H. reflexivity.
Qed.

Lemma validate_sql_semicolon_inside_witness :
  validate_sql "SELECT 1; DROP TABLE t " =
  (false, "Multiple statements are not allowed (semicolon detected in middle of query).").
Proof.
  apply (validate_sql_semicolon_inside "SELECT 1; DROP TABLE t ").
  exists "SELECT 1", " DROP TABLE t". split; [reflexivity | discriminate].
Defined.

Lemma validate_sql_trailing_blank_counterexample :
  semicolon_inside "SELECT 1; " /\
  validate_sql "SELECT 1; " = (true, "Valid SQL").
Proof.
  split; [|vm_compute; reflexivity].
  exists "SELECT 1", " ". split; [reflexivity | discriminate].
Qed.

Lemma blank_last_not_word (p : option ascii) (a : string) :
  word_at p = false -> blank a = true -> word_at (last_char p a) = false.
Proof.
  revert p; induction a as [|x a IH]; intros p Hp B; simpl in *; [exact Hp|].
  apply andb_true_iff in B as [Hx B]. apply IH; [|exact B].
  simpl. apply isspace_not_word, Hx.
Qed.

Lemma blank_head_not_word (b : string) :
  blank b = true -> word_at (head b) = false.
Proof.
  destruct b as [|x b]; simpl; [reflexivity|].
  intros B. apply andb_true_iff in B as [Hx _]. apply isspace_not_word, Hx.
Qed.

Lemma whole_word_unstrip (kw q : string) :
  whole_word kw (strip q) -> whole_word kw q.
Proof.
  intros [a [m [b [E [W [Ha Hb]]]]]].
  destruct (strip_decomp q) as [x [y [Eq [Bx By]]]].
  exists (x ++ a), m, (b ++ y). split; [|split; [exact W|split]].
  - rewrite Eq at 1. rewrite E. rewrite !append_assoc. reflexivity.
  - rewrite last_char_append. destruct a as [|c a].
    + simpl. apply blank_last_not_word; auto.
    + rewrite (last_char_nonempty _ None); [exact Ha | discriminate].
  - destruct b as [|c b]; [|exact Hb]. simpl. apply blank_head_not_word, By.
Qed.

Lemma whole_word_strip_iff (kw q : string) :
  keyword_ok kw -> whole_word kw (strip q) <-> whole_word kw q.
Proof.
  intros K. split; [apply whole_word_unstrip | apply whole_word_strip, K].
Qed.

Lemma validate_sql_keyword_rejected (query keyword : string) :
  In keyword prohibited_keywords -> whole_word keyword query ->
  fst (validate_sql query) = false.
Proof.
  intros Hin W. destruct (fst (validate_sql query)) eqn:E; [|reflexivity].
  apply validate_sql_true in E. destruct E as [_ [_ [_ [K _]]]].
  elim (K keyword Hin). apply whole_word_strip; [apply keyword_in_ok, Hin | exact W].
Qed.

Lemma validate_sql_keyword_named (query keyword : string) :
  In keyword prohibited_keywords -> whole_word keyword query ->
  ~ semicolon_inside (strip query) -> begins_with_select (strip query) ->
  exists k before after,
    prohibited_keywords = (before ++ k :: after)%list /\
    whole_word k query /\
    (forall kw, In kw before -> ~ whole_word kw query) /\
    validate_sql query = (false, "Prohibited keyword detected: " ++ k).
Proof.
  intros Hin W S2 S3.
  pose proof (keyword_in_ok _ Hin) as K.
  apply (whole_word_strip _ _ K) in W.
  assert (N : strip query <> "").
  { destruct W as [a [m [b [E [Wm _]]]]]. rewrite E. intros Z.
    apply append_eq_nil in Z as [_ Z]. apply append_eq_nil in Z as [-> _].
    unfold same_word in Wm. destruct K as [Ek [Hh _]]. rewrite Ek in Wm.
    subst keyword. discriminate. }
  unfold validate_sql.
  destruct (is_empty query) eqn:E0; [elim N; apply strip_empty, E0|].
  apply is_empty_false in N. rewrite N.
  destruct (contains ";" (slice_to (strip query) (-1))) eqn:E2;
    [apply semicolon_inside_spec in E2; contradiction|].
  apply select_match_spec in S3. rewrite S3. cbn [negb].
  destruct (first_prohibited prohibited_keywords (upper (strip query))) as [k|] eqn:E4.
  - apply first_prohibited_some in E4 as [before [after [El [Hs Hb]]]].
    assert (Hk : In k prohibited_keywords) by (rewrite El; apply in_elt).
    exists k, before, after. split; [exact El|]. split; [|split; [|reflexivity]].
    + apply whole_word_unstrip, (word_search_spec k _ (keyword_in_ok k Hk)), Hs.
    + intros kw Hkw Wk.
      assert (Hkw' : In kw prohibited_keywords)
        by (rewrite El; apply in_or_app; left; exact Hkw).
      pose proof (keyword_in_ok _ Hkw') as K'.
      apply (whole_word_strip _ _ K') in Wk.
      apply (word_search_spec kw _ K') in Wk. rewrite (Hb kw Hkw) in Wk. discriminate.
  - rewrite first_prohibited_none in E4.
    apply (word_search_spec keyword _ K) in W. rewrite (E4 _ Hin) in W. discriminate.
Qed.

Lemma validate_sql_keyword_reason (query k : string) :
  validate_sql query = (false, "Prohibited keyword detected: " ++ k) ->
  In k prohibited_keywords /\ whole_word k query.
Proof.
  unfold validate_sql.
  destruct (is_empty query); [intros H; injection H as H; discriminate H|].
  destruct (is_empty (strip query)); [intros H; injection H as H; discriminate H|].
  destruct (contains ";" (slice_to (strip query) (-1)));
    [intros H; injection H as H; discriminate H|].
  destruct (negb (re_match IGNORECASE select_pattern (strip query)));
    [intros H; injection H as H; discriminate H|].
  destruct (first_prohibited prohibited_keywords (upper (strip query))) as [k'|] eqn:E.
  - intros H. injection H as H. subst k'.
    apply first_prohibited_some in E as [before [after [El [Hs _]]]].
    assert (Hin : In k prohibited_keywords) by (rewrite El; apply in_elt).
    split; [exact Hin|].
    apply whole_word_unstrip, (word_search_spec k _ (keyword_in_ok k Hin)), Hs.
  - destruct (contains "--" (strip query) || contains "/*" (strip query));
      intros H; [injection H as H; discriminate H | discriminate H].
Qed.

(** C3, amended.  Every query that contains a denylisted keyword as a whole
    word, in any letter case, is rejected.  When its trimmed form passes the
    semicolon rule and the SELECT rule, the reason is the prohibited-keyword
    one and names the first keyword of the denylist that occurs as a whole
    word.  A keyword that occurs only inside a longer identifier does not
    count: the prohibited-keyword reason is given only for a keyword that
    occurs as a whole word; UPDATE occurs in SELECT updated_at FROM t but
    not as a whole word, and that query is valid. *)
Theorem validate_sql_keyword :
  (forall query keyword,
     In keyword prohibited_keywords -> whole_word keyword query ->
     fst (validate_sql query) = false /\
     (~ semicolon_inside (strip query) -> begins_with_select (strip query) ->
      exists k before after,
        prohibited_keywords = (before ++ k :: after)%list /\
        whole_word k query /\
        (forall kw, In kw before -> ~ whole_word kw query) /\
        validate_sql query = (false, "Prohibited keyword detected: " ++ k))) /\
  (forall query k,
     validate_sql query = (false, "Prohibited keyword detected: " ++ k) ->
     In k prohibited_keywords /\ whole_word k query) /\
  infix "UPDATE" (upper "SELECT updated_at FROM t") /\
  ~ whole_word "UPDATE" "SELECT updated_at FROM t" /\
  validate_sql "SELECT updated_at FROM t" = (true, "Valid SQL").
Proof.
  split; [|split; [|split; [|split]]].
  - intros query keyword Hin W. split.
    + apply (validate_sql_keyword_rejected query keyword Hin W).
    + apply (validate_sql_keyword_named query keyword Hin W).
  - apply validate_sql_keyword_reason.
  - apply contains_spec. vm_compute. reflexivity.
  - rewrite <- (word_search_spec "UPDATE" _ (keyword_in_ok "UPDATE" (or_intror (or_introl eq_refl)))).
    vm_compute. discriminate.
  - vm_compute. reflexivity.
Qed.

Lemma validate_sql_keyword_witness :
  In "DELETE" prohibited_keywords /\
  whole_word "DELETE" "select 1 from t where delete" /\
  fst (validate_sql "select 1 from t where delete") = false.
Proof.
  assert (Hin : In "DELETE" prohibited_keywords) by (simpl; tauto).
  assert (W : whole_word "DELETE" "select 1 from t where delete").
  { exists "select 1 from t where ", "delete", "". repeat split. }
  split; [exact Hin|]. split; [exact W|].
  exact (proj1 (proj1 validate_sql_keyword _ _ Hin W)).
Defined.

Lemma validate_sql_keyword_counterexample :
  In "DROP" prohibited_keywords /\
  whole_word "DROP" "DROP TABLE t" /\
  validate_sql "DROP TABLE t" = (false, "Only SELECT queries are allowed.") /\
  validate_sql "DROP TABLE t" <> (false, "Prohibited keyword detected: DROP").
Proof.
  split; [simpl; tauto|]. split.
  - exists "", "DROP", " TABLE t". repeat split.
  - split; [vm_compute; reflexivity | vm_compute; discriminate].
Qed.

(** ** The extractor *)

Lemma select_token_spec (s : string) :
  contains "SELECT" (upper s) = true <-> select_token_in s.
Proof.
  rewrite contains_spec. unfold select_token_in, same_word. split.
  - intros [a [b E]].
    apply upper_eq_append in E as [a0 [r0 [-> [_ E]]]].
    apply upper_eq_append in E as [m0 [b0 [-> [Em _]]]].
    exists m0. split; [exact Em | exists a0, b0; reflexivity].
  - intros [m [Em H]]. apply infix_upper in H. rewrite Em in H. exact H.
Qed.

Lemma select_token_infix (r s : string) :
  infix r s -> select_token_in r -> select_token_in s.
Proof.
  intros H [m [Em Hm]]. exists m. split; [exact Em | exact (infix_trans _ _ _ Hm H)].
Qed.

Lemma select_word_has_no_newline (m : string) :
  same_word "SELECT" m -> ~ infix nl m.
Proof.
  intros Em H. apply infix_upper in H. rewrite Em in H.
  apply contains_spec in H. vm_compute in H. discriminate.
Qed.

Lemma select_word_has_no_semicolon (m : string) :
  same_word "SELECT" m -> ~ infix ";" m.
Proof.
  intros Em H. apply infix_upper in H. rewrite Em in H.
  apply contains_spec in H. vm_compute in H. discriminate.
Qed.

Lemma begins_with_select_token (t : string) :
  begins_with_select t -> select_token_in t.
Proof.
  intros [ws [m [rest [-> [_ Em]]]]]. exists m. split; [exact Em | exists ws, rest; reflexivity].
Qed.

Lemma FENCE_nonempty : FENCE <> "".
Proof. discriminate. Qed.

Lemma SEPARATOR_nonempty : SEPARATOR <> "".
Proof. discriminate. Qed.

Lemma item_in {A : Type} (l : list A) (i : nat) (a : A) :
  item l i = Returned a -> In a l.
Proof.
  unfold item. destruct (nth_error l i) eqn:E; [|discriminate].
  intros H; injection H as <-. apply (nth_error_In _ _ E).
Qed.

Lemma strip_fence_returns (g : string) :
  exists g1, strip_fence g = Returned g1 /\ infix g1 g.
Proof.
  unfold strip_fence. destruct (startswith g FENCE) eqn:E.
  - apply startswith_spec in E as [r E].
    assert (H : infix FENCE g) by (exists "", r; exact E).
    destruct (split_two FENCE g FENCE_nonempty H) as [p0 [p1 [rest Es]]].
    rewrite Es. cbn [item nth_error bind]. exists (strip p1). split; [reflexivity|].
    apply (infix_trans _ p1); [apply infix_strip|].
    apply (split_pieces FENCE); [exact FENCE_nonempty|].
    rewrite Es. right; left; reflexivity.
  - exists g. split; [reflexivity | apply infix_refl].
Qed.

Lemma infix_strip_language_tag (g : string) : infix (strip_language_tag g) g.
Proof.
  unfold strip_language_tag. destruct (startswith (lower g) "sql").
  - apply (infix_trans _ (slice_from g 3)); [apply infix_strip | apply infix_slice_from].
  - apply infix_refl.
Qed.

Lemma unfenced_returns (content : string) :
  exists g, unfenced content = Returned g /\ infix g content.
Proof.
  unfold unfenced. destruct (strip_fence_returns (strip content)) as [g1 [E H]].
  rewrite E. cbn [bind]. exists (strip_language_tag g1). split; [reflexivity|].
  apply (infix_trans _ g1); [apply infix_strip_language_tag|].
  apply (infix_trans _ _ _ H), infix_strip.
Qed.

Lemma split_reasoning_returns (g : string) :
  exists r c, split_reasoning g = Returned (r, c).
Proof.
  unfold split_reasoning. destruct (contains SEPARATOR g) eqn:E.
  - apply contains_spec in E.
    destruct (split_two SEPARATOR g SEPARATOR_nonempty E) as [p0 [p1 [rest Es]]].
    rewrite Es. cbn [item nth_error bind]. eauto.
  - destruct (contains "SELECT" (upper g)); eauto.
Qed.

Lemma clean_loop_in (l : string) (lines : list string) :
  In l (clean_loop lines) -> In l lines.
Proof.
  induction lines as [|x lines IH]; cbn [clean_loop]; [auto|].
  destruct (startswith (strip x) "Note:" || startswith (strip x) "Explanation:");
    [intros []|].
  destruct (negb (startswith (strip x) "--") && negb (startswith (strip x) "/*")).
  - intros [H|H]; [left; exact H | right; exact (IH H)].
  - intros H. right. exact (IH H).
Qed.

Lemma nl_nonempty : nl <> "".
Proof. discriminate. Qed.

(** What occurs in the cleaned candidate on one line occurs in the
    candidate. *)
Lemma clean_lines_infix (t g : string) :
  ~ infix nl t -> infix t (clean_lines g) -> infix t g.
Proof.
  intros Ht H. unfold clean_lines in H.
  apply (infix_join t g (clean_loop (split g nl)) Ht).
  - intros l Hl. apply (split_pieces nl); [exact nl_nonempty|].
    apply clean_loop_in, Hl.
  - apply (infix_trans _ _ _ H), infix_strip.
Qed.

Lemma semicolon_fix_first (g a b : string) :
  first_cut ";" g a b -> semicolon_fix g = Returned (a ++ ";").
Proof.
  intros F. unfold semicolon_fix.
  assert (C : contains ";" g = true).
  { apply contains_spec. destruct F as [E _]. exists a, b. exact E. }
  rewrite C. rewrite (split_first_cut ";" g a b); [reflexivity | discriminate | exact F].
Qed.

Lemma semicolon_fix_returns (g : string) :
  exists q, semicolon_fix g = Returned q /\
            forall t, ~ infix ";" t -> infix t q -> infix t g.
Proof.
  destruct (contains ";" g) eqn:C.
  - apply contains_spec in C. destruct (first_cut_exists ";" g C) as [a [b F]].
    exists (a ++ ";"). split; [apply (semicolon_fix_first g a b F)|].
    intros t Ht H. destruct F as [-> _].
    apply infix_cut in H; [|exact Ht]. destruct H as [H|H].
    + apply infix_append_l, H.
    + destruct H as [x [y H]]. symmetry in H.
      apply append_eq_nil in H as [_ H]. apply append_eq_nil in H as [-> _].
      exists "", (a ++ ";" ++ b). reflexivity.
  - exists g. unfold semicolon_fix. rewrite C. auto.
Qed.

Lemma extract_completion_returns (content : string) :
  exists r, extract_completion content = Returned r.
Proof.
  unfold extract_completion.
  destruct (unfenced_returns content) as [g [-> _]]. cbn [bind].
  destruct (split_reasoning_returns g) as [r [c ->]]. cbn [bind].
  destruct (semicolon_fix_returns (clean_lines c)) as [q [-> _]]. cbn [bind].
  eauto.
Qed.

(** C9.  The extraction never raises: every completion, also one with an
    unmatched fence, with no separator and no SELECT, or with no line left
    by the cleanup, gives a result with some sql string. *)
Theorem extract_completion_total :
  (forall content, exists r, extract_completion content = Returned r) /\
  extract_completion "```SELECT 1" = Returned (mkCompletion "" "SELECT 1") /\
  extract_completion "I cannot help with that." =
    Returned (mkCompletion "" "I cannot help with that.") /\
  extract_completion ("-- a" ++ nl ++ "/* b */") = Returned (mkCompletion "" "") /\
  extract_completion "" = Returned (mkCompletion "" "").
Proof.
  split; [exact extract_completion_returns|].
  repeat split; vm_compute; reflexivity.
Qed.

Lemma extract_no_select (content : string) :
  ~ infix SEPARATOR content -> ~ select_token_in content ->
  exists q, extract_completion content = Returned (mkCompletion "" q) /\
            ~ select_token_in q.
Proof.
  intros Hsep Hsel. unfold extract_completion.
  destruct (unfenced_returns content) as [g [-> Hg]]. cbn [bind].
  assert (E1 : contains SEPARATOR g = false).
  { apply contains_false. intros H. apply Hsep, (infix_trans _ _ _ H Hg). }
  assert (E2 : contains "SELECT" (upper g) = false).
  { destruct (contains "SELECT" (upper g)) eqn:E; [|reflexivity].
    apply select_token_spec in E. elim Hsel. apply (select_token_infix _ _ Hg E). }
  unfold split_reasoning. rewrite E1, E2. cbn [bind].
  destruct (semicolon_fix_returns (clean_lines g)) as [q [-> Hq]]. cbn [bind].
  exists q. split; [reflexivity|].
  intros [m [Em Hm]]. apply Hsel. exists m. split; [exact Em|].
  apply (fun H => infix_trans _ _ _ H Hg).
  apply clean_lines_infix; [apply select_word_has_no_newline, Em|].
  apply Hq; [apply select_word_has_no_semicolon, Em | exact Hm].
Qed.

Lemma validate_sql_needs_select (q : string) :
  ~ select_token_in q -> fst (validate_sql q) = false.
Proof.
  intros H. destruct (fst (validate_sql q)) eqn:E; [|reflexivity].
  apply validate_sql_true in E. destruct E as [_ [B _]].
  elim H. apply (select_token_infix (strip q)); [apply infix_strip|].
  apply begins_with_select_token, B.
Qed.

(** C5.  A completion that contains neither the separator nor the token
    SELECT in any letter case is extracted to an sql string that is empty
    or does not begin with SELECT, and [validate_sql] rejects that sql. *)
Theorem extract_then_validate_rejects (content : string) :
  ~ infix SEPARATOR content -> ~ select_token_in content ->
  exists r,
    extract_completion content = Returned r /\
    (sql r = "" \/ ~ begins_with_select (sql r)) /\
    fst (validate_sql (sql r)) = false.
Proof.
  intros Hsep Hsel.
  destruct (extract_no_select content Hsep Hsel) as [q [E Hq]].
  exists (mkCompletion "" q). split; [exact E|]. cbn [sql]. split.
  - right. intros B. apply Hq, begins_with_select_token, B.
  - apply validate_sql_needs_select, Hq.
Qed.

Lemma extract_then_validate_rejects_witness :
  exists r,
    extract_completion "DROP TABLE users; -- gone" = Returned r /\
    (sql r = "" \/ ~ begins_with_select (sql r)) /\
    fst (validate_sql (sql r)) = false.
Proof.
  apply (extract_then_validate_rejects "DROP TABLE users; -- gone").
  - apply contains_false. vm_compute. reflexivity.
  - rewrite <- select_token_spec. vm_compute. discriminate.
Defined.

Lemma split_reasoning_separator (g before after : string) :
  first_cut SEPARATOR g before after ->
  exists candidate,
    ((~ infix SEPARATOR after /\ candidate = after) \/
     (exists rest, first_cut SEPARATOR after candidate rest)) /\
    split_reasoning g = Returned (strip before, strip candidate).
Proof.
  intros F. unfold split_reasoning.
  assert (C : contains SEPARATOR g = true).
  { apply contains_spec. destruct F as [E _]. exists before, after. exact E. }
  rewrite C, (split_first_cut _ _ _ _ SEPARATOR_nonempty F).
  destruct (contains SEPARATOR after) eqn:C'.
  - apply contains_spec in C'.
    destruct (first_cut_exists _ _ C') as [candidate [rest F']].
    exists candidate. split; [right; exists rest; exact F'|].
    rewrite (split_first_cut _ _ _ _ SEPARATOR_nonempty F'). reflexivity.
  - apply contains_false in C'. exists after. split; [left; auto|].
    rewrite (split_none _ _ C'). reflexivity.
Qed.

(** C7, amended.  When the completion, once its fence and language tag are
    stripped, contains the separator, the reasoning is the trimmed text
    before the first separator and the SQL candidate is the trimmed text
    between the first separator and the next one: everything after the
    separator when it occurs once.  In particular the completion
    reasoning text ### SQL START ### SELECT * FROM t; followed by a line
    Note: done gives the reasoning reasoning text and the sql
    SELECT * FROM t; *)
Theorem extract_completion_separator :
  (forall content g before after,
     unfenced content = Returned g ->
     first_cut SEPARATOR g before after ->
     exists candidate r,
       ((~ infix SEPARATOR after /\ candidate = after) \/
        (exists rest, first_cut SEPARATOR after candidate rest)) /\
       split_reasoning g = Returned (strip before, strip candidate) /\
       extract_completion content = Returned r /\
       reasoning r = strip before /\
       semicolon_fix (clean_lines (strip candidate)) = Returned (sql r)) /\
  extract_completion
    ("reasoning text ### SQL START ### SELECT * FROM t;" ++ nl ++ "Note: done")
  = Returned (mkCompletion "reasoning text" "SELECT * FROM t;").
Proof.
  split; [|vm_compute; reflexivity].
  intros content g before after Hg F.
  destruct (split_reasoning_separator g before after F) as [candidate [Hc Hs]].
  destruct (semicolon_fix_returns (clean_lines (strip candidate))) as [q [Hq _]].
  exists candidate, (mkCompletion (strip before) q).
  split; [exact Hc|]. split; [exact Hs|].
  unfold extract_completion. rewrite Hg. cbn [bind]. rewrite Hs. cbn [bind].
  rewrite Hq. cbn [bind reasoning sql]. auto.
Qed.

Lemma extract_completion_separator_witness :
  unfenced "because ### SQL START ### SELECT 1;" =
    Returned "because ### SQL START ### SELECT 1;" /\
  first_cut SEPARATOR "because ### SQL START ### SELECT 1;" "because " " SELECT 1;" /\
  exists candidate r,
    ((~ infix SEPARATOR " SELECT 1;" /\ candidate = " SELECT 1;") \/
     (exists rest, first_cut SEPARATOR " SELECT 1;" candidate rest)) /\
    split_reasoning "because ### SQL START ### SELECT 1;" =
      Returned (strip "because ", strip candidate) /\
    extract_completion "because ### SQL START ### SELECT 1;" = Returned r /\
    reasoning r = strip "because " /\
    semicolon_fix (clean_lines (strip candidate)) = Returned (sql r).
Proof.
  assert (U : unfenced "because ### SQL START ### SELECT 1;" =
              Returned "because ### SQL START ### SELECT 1;") by reflexivity.
  assert (F : first_cut SEPARATOR "because ### SQL START ### SELECT 1;"
                        "because " " SELECT 1;").
  { apply (first_cut_of_split _ _ _ _ [" SELECT 1;"]);
      [exact SEPARATOR_nonempty | reflexivity | reflexivity]. }
  split; [exact U|]. split; [exact F|].
  exact (proj1 extract_completion_separator _ _ _ _ U F).
Defined.

Lemma extract_completion_second_separator_counterexample :
  unfenced "r ### SQL START ### SELECT 1 ### SQL START ### SELECT 2" =
    Returned "r ### SQL START ### SELECT 1 ### SQL START ### SELECT 2" /\
  first_cut SEPARATOR "r ### SQL START ### SELECT 1 ### SQL START ### SELECT 2"
            "r " " SELECT 1 ### SQL START ### SELECT 2" /\
  split_reasoning "r ### SQL START ### SELECT 1 ### SQL START ### SELECT 2" =
    Returned ("r", "SELECT 1") /\
  strip " SELECT 1 ### SQL START ### SELECT 2" <> "SELECT 1" /\
  extract_completion "r ### SQL START ### SELECT 1 ### SQL START ### SELECT 2" =
    Returned (mkCompletion "r" "SELECT 1").
Proof.
  split; [reflexivity|]. split.
  - apply (first_cut_of_split _ _ _ _ [" SELECT 1 "; " SELECT 2"]);
      [exact SEPARATOR_nonempty | reflexivity | reflexivity].
  - split; [reflexivity|]. split; [vm_compute; discriminate | reflexivity].
Qed.

Lemma extract_completion_cleaned (content g : string) :
  cleaned_candidate content = Returned g ->
  exists reasoning q,
    semicolon_fix g = Returned q /\
    extract_completion content = Returned (mkCompletion reasoning q).
Proof.
  unfold cleaned_candidate, extract_completion.
  destruct (unfenced content) as [g0|]; cbn [bind]; [|discriminate].
  destruct (split_reasoning g0) as [[r c]|]; cbn [bind]; [|discriminate].
  intros H. injection H as <-.
  destruct (semicolon_fix_returns (clean_lines c)) as [q [Hq _]].
  exists r, q. rewrite Hq. auto.
Qed.

(** C8.  When the candidate left by the line-level cleanup contains a
    semicolon, the final sql is exactly its text up to and including the
    first semicolon.  In particular SELECT a FROM b; SELECT c FROM d; gives
    SELECT a FROM b; *)
Theorem semicolon_fix_first_statement :
  (forall g, infix ";" g ->
     exists a b, first_cut ";" g a b /\ semicolon_fix g = Returned (a ++ ";")) /\
  (forall content g a b,
     cleaned_candidate content = Returned g -> first_cut ";" g a b ->
     exists r, extract_completion content = Returned r /\ sql r = a ++ ";") /\
  cleaned_candidate "SELECT a FROM b; SELECT c FROM d;" =
    Returned "SELECT a FROM b; SELECT c FROM d;" /\
  extract_completion "SELECT a FROM b; SELECT c FROM d;" =
    Returned (mkCompletion "" "SELECT a FROM b;").
Proof.
  split; [|split; [|split; vm_compute; reflexivity]].
  - intros g H. destruct (first_cut_exists _ _ H) as [a [b F]].
    exists a, b. split; [exact F | apply (semicolon_fix_first g a b F)].
  - intros content g a b Hc F.
    destruct (extract_completion_cleaned content g Hc) as [r [q [Hq He]]].
    rewrite (semicolon_fix_first g a b F) in Hq. injection Hq as <-.
    exists (mkCompletion r (a ++ ";")). auto.
Qed.

Lemma semicolon_fix_first_statement_witness :
  infix ";" "SELECT 1; SELECT 2;" /\
  exists a b,
    first_cut ";" "SELECT 1; SELECT 2;" a b /\
    semicolon_fix "SELECT 1; SELECT 2;" = Returned (a ++ ";").
Proof.
  assert (H : infix ";" "SELECT 1; SELECT 2;")
    by (exists "SELECT 1", " SELECT 2;"; reflexivity).
  split; [exact H|].
  exact (proj1 semicolon_fix_first_statement _ H).
Defined.

(** ** The executor *)

Section ExecutorFacts.

Variable DataFrame : Type.
Variable engine : string -> execution DataFrame.

Lemma run_query_invalid (query reason : string) (st : Session) :
  validate_sql query = (false, reason) ->
  run_query DataFrame engine query st =
  ((None, Some ("Validation Error: " ++ reason)), st).
Proof. intros H. unfold run_query. rewrite H. reflexivity. Qed.

Lemma run_query_valid (query : string) (st : Session) :
  fst (validate_sql query) = true ->
  run_query DataFrame engine query st =
  match engine query with
  | Rows df duration =>
      ((Some df, None),
       mkSession (Success query (duration ++ "s") :: logs st) (query :: submitted st))
  | Failure e =>
      ((None, Some ("Execution Error: " ++ e)),
       mkSession (Error query e :: logs st) (query :: submitted st))
  end.
Proof.
  intros H. unfold run_query. destruct (validate_sql query) as [v msg].
  simpl in H. subst v. reflexivity.
Qed.

(** C4.  A query that [validate_sql] rejects with some reason is not handed
    to the engine: [run_query] returns no rows and the message
    Validation Error: followed by that reason, and leaves the session as it
    was.  The engine receives a query only when the validator accepts it. *)
Theorem run_query_rejected :
  (forall query reason st,
     validate_sql query = (false, reason) ->
     run_query DataFrame engine query st =
       ((None, Some ("Validation Error: " ++ reason)), st) /\
     submitted (snd (run_query DataFrame engine query st)) = submitted st) /\
  (forall query st,
     submitted (snd (run_query DataFrame engine query st)) =
     if fst (validate_sql query) then query :: submitted st else submitted st).
Proof.
  split.
  - intros query reason st H. rewrite (run_query_invalid query reason st H). auto.
  - intros query st. destruct (validate_sql query) as [[|] msg] eqn:E; cbn [fst].
    + rewrite run_query_valid by (rewrite E; reflexivity).
      destruct (engine query); reflexivity.
    + rewrite (run_query_invalid query msg st E). reflexivity.
Qed.

(** C10.  A query that [validate_sql] rejects leaves the session log as it
    was.  Whenever [run_query] changes the log, the query was handed to the
    engine and the new first entry records it as Success or as Error. *)
Theorem run_query_log :
  (forall query st,
     fst (validate_sql query) = false ->
     logs (snd (run_query DataFrame engine query st)) = logs st) /\
  (forall query st,
     logs (snd (run_query DataFrame engine query st)) = logs st \/
     (submitted (snd (run_query DataFrame engine query st)) = query :: submitted st /\
      exists detail,
        logs (snd (run_query DataFrame engine query st)) = Success query detail :: logs st \/
        logs (snd (run_query DataFrame engine query st)) = Error query detail :: logs st)).
Proof.
  split.
  - intros query st H. destruct (validate_sql query) as [v msg] eqn:E.
    simpl in H. subst v. rewrite (run_query_invalid query msg st E). reflexivity.
  - intros query st. destruct (validate_sql query) as [[|] msg] eqn:E.
    + right. rewrite run_query_valid by (rewrite E; reflexivity).
      destruct (engine query) as [df duration|e]; cbn [snd submitted logs].
      * split; [reflexivity|]. exists (duration ++ "s"). left; reflexivity.
      * split; [reflexivity|]. exists e. right; reflexivity.
    + left. rewrite (run_query_invalid query msg st E). reflexivity.
Qed.

End ExecutorFacts.

Lemma run_query_rejected_witness :
  validate_sql "DROP TABLE t" = (false, "Only SELECT queries are allowed.") /\
  run_query (list string) (fun _ => Failure "unreachable") "DROP TABLE t"
            (mkSession [] []) =
    ((None, Some "Validation Error: Only SELECT queries are allowed."), mkSession [] []) /\
  submitted (snd (run_query (list string) (fun _ => Failure "unreachable")
                            "DROP TABLE t" (mkSession [] []))) = [].
Proof.
  assert (H : validate_sql "DROP TABLE t" = (false, "Only SELECT queries are allowed."))
    by (vm_compute; reflexivity).
  split; [exact H|].
  exact (proj1 (run_query_rejected (list string) (fun _ => Failure "unreachable"))
               "DROP TABLE t" _ (mkSession [] []) H).
Defined.

Lemma run_query_log_witness :
  fst (validate_sql "SELECT 1; DELETE FROM t") = false /\
  logs (snd (run_query (list string) (fun _ => Rows [] "0.0001")
                       "SELECT 1; DELETE FROM t"
                       (mkSession [Success "SELECT 1" "0.0002s"] ["SELECT 1"])))
  = [Success "SELECT 1" "0.0002s"].
Proof.
  assert (H : fst (validate_sql "SELECT 1; DELETE FROM t") = false)
    by (vm_compute; reflexivity).
  split; [exact H|].
  exact (proj1 (run_query_log (list string) (fun _ => Rows [] "0.0001"))
               "SELECT 1; DELETE FROM t"
               (mkSession [Success "SELECT 1" "0.0002s"] ["SELECT 1"]) H).
Defined.

(** ** The context store *)

Lemma collection_add_in (s : Snippet) (new : list Snippet) (c : Collection) :
  In s (collection_add new c) -> In s c \/ In s new.
Proof.
  revert c; induction new as [|x new IH]; intros c H; simpl in H; [auto|].
  apply IH in H as [H|H]; [|right; right; exact H].
  destruct (has_id (id x) c); [left; exact H|].
  apply in_app_or in H as [H|[<-|[]]]; [left; exact H | right; left; reflexivity].
Qed.

Lemma collection_add_get (key value : string) (new : list Snippet) (c : Collection) :
  (forall s, In s new -> satisfies key value s = false) ->
  collection_get key value (collection_add new c) = collection_get key value c.
Proof.
  unfold collection_get.
  revert c; induction new as [|x new IH]; intros c H; simpl; [reflexivity|].
  rewrite IH by (intros s Hs; apply H; right; exact Hs).
  destruct (has_id (id x) c); [reflexivity|].
  rewrite filter_app. simpl. rewrite (H x) by (left; reflexivity).
  apply app_nil_r.
Qed.

Lemma satisfies_exclusive (key v w : string) (s : Snippet) :
  v <> w -> satisfies key v s = true -> satisfies key w s = false.
Proof.
  unfold satisfies. destruct (lookup key (metadata s)) as [x|]; [|discriminate].
  intros N H. apply String.eqb_eq in H. subst x. apply String.eqb_neq, N.
Qed.

Lemma collection_delete_get (key v w : string) (c : Collection) :
  v <> w ->
  collection_get key v (collection_delete key w c) = collection_get key v c.
Proof.
  intros N. unfold collection_get, collection_delete.
  induction c as [|x c IH]; simpl; [reflexivity|].
  destruct (satisfies key v x) eqn:Hv.
  - rewrite (satisfies_exclusive key v w x N Hv). simpl. rewrite Hv, IH. reflexivity.
  - destruct (satisfies key w x); simpl; [exact IH | rewrite Hv; exact IH].
Qed.

Lemma collection_delete_none (key value : string) (c : Collection) (s : Snippet) :
  In s (collection_delete key value c) -> satisfies key value s = false.
Proof.
  unfold collection_delete. rewrite filter_In. intros [_ H].
  destruct (satisfies key value s); [discriminate | reflexivity].
Qed.

Lemma schema_loop_kind (chunks : list (nat * string)) (s : Snippet) :
  In s (schema_loop chunks) ->
  satisfies "type" "schema" s = true /\ satisfies "type" "logic" s = false.
Proof.
  induction chunks as [|[i chunk] chunks IH]; simpl; [intros []|].
  destruct (is_empty (strip chunk)); [exact IH|].
  intros [<-|H]; [split; reflexivity | exact (IH H)].
Qed.

Lemma index_schema_unfold (schema_text : string) (c : Collection) :
  index_schema schema_text c =
  collection_add (schema_snippets schema_text) (collection_delete "type" "schema" c).
Proof. unfold index_schema. destruct (schema_snippets schema_text); reflexivity. Qed.

Lemma index_schema_fresh (schema_text : string) (c : Collection) (s : Snippet) :
  In s (index_schema schema_text c) -> satisfies "type" "schema" s = true ->
  In s (schema_snippets schema_text).
Proof.
  rewrite index_schema_unfold. intros H K.
  apply collection_add_in in H as [H|H]; [|exact H].
  apply collection_delete_none in H. congruence.
Qed.

Lemma index_schema_keeps_logic (schema_text : string) (c : Collection) :
  collection_get "type" "logic" (index_schema schema_text c) =
  collection_get "type" "logic" c.
Proof.
  rewrite index_schema_unfold, collection_add_get.
  - apply collection_delete_get. discriminate.
  - intros s H. apply (schema_loop_kind _ s H).
Qed.

(** C6.  [index_schema] deletes every snippet of type schema, then adds the
    snippets of the new text.  After two calls, every schema snippet in the
    store, and so every schema snippet a retrieval can return, comes from
    the second text; a snippet of the first text that the second does not
    give again is gone; and the snippets of type logic are those the store
    had before. *)
Theorem index_schema_replaces :
  (forall schema_text c,
     index_schema schema_text c =
       collection_add (schema_snippets schema_text)
                      (collection_delete "type" "schema" c) /\
     collection_get "type" "schema" (collection_delete "type" "schema" c) = []) /\
  (forall first second c s,
     In s (index_schema second (index_schema first c)) ->
     satisfies "type" "schema" s = true ->
     In s (schema_snippets second)) /\
  (forall first second c s,
     In s (schema_snippets first) -> ~ In s (schema_snippets second) ->
     ~ In s (index_schema second (index_schema first c))) /\
  (forall nearest : string -> nat -> Collection -> list Snippet,
     (forall q n c s, In s (nearest q n c) -> In s c) ->
     forall first second c query n_results d,
       In d (get_relevant_context nearest query n_results
               (index_schema second (index_schema first c))) ->
       exists s, document s = d /\
                 (satisfies "type" "schema" s = true -> In s (schema_snippets second))) /\
  (forall first second c,
     collection_get "type" "logic" (index_schema second (index_schema first c)) =
     collection_get "type" "logic" c).
Proof.
  split; [|split; [|split; [|split]]].
  - intros schema_text c. split; [apply index_schema_unfold|].
    unfold collection_get, collection_delete.
    induction c as [|x c IH]; simpl; [reflexivity|].
    destruct (satisfies "type" "schema" x) eqn:E; simpl; [exact IH|].
    rewrite E. exact IH.
  - intros first second c s. apply index_schema_fresh.
  - intros first second c s H1 H2 H. apply H2.
    apply (index_schema_fresh second _ s H). apply (schema_loop_kind _ s H1).
  - intros nearest Hn first second c query n_results d H.
    unfold get_relevant_context in H. apply in_map_iff in H as [s [Hd Hs]].
    exists s. split; [exact Hd|]. apply Hn in Hs.
    apply (index_schema_fresh second _ s Hs).
  - intros first second c. rewrite !index_schema_keeps_logic. reflexivity.
Qed.

Lemma firstn_subset {A : Type} (n : nat) (l : list A) (x : A) :
  In x (firstn n l) -> In x l.
Proof.
  revert l; induction n as [|n IH]; intros [|y l]; simpl; try tauto.
  intros [H|H]; [left; exact H | right; exact (IH l H)].
Qed.

Lemma index_schema_replaces_witness :
  In ("Table: orders" ++ nl ++ "- id (INTEGER)")
     (get_relevant_context (fun _ n c => firstn n c) "How many orders?" 3
        (index_schema ("Table: orders" ++ nl ++ "- id (INTEGER)")
           (index_schema ("Table: customers" ++ nl ++ "- name (TEXT)") []))) /\
  exists s, document s = "Table: orders" ++ nl ++ "- id (INTEGER)" /\
            (satisfies "type" "schema" s = true ->
             In s (schema_snippets ("Table: orders" ++ nl ++ "- id (INTEGER)"))).
Proof.
  assert (H : In ("Table: orders" ++ nl ++ "- id (INTEGER)")
     (get_relevant_context (fun _ n c => firstn n c) "How many orders?" 3
        (index_schema ("Table: orders" ++ nl ++ "- id (INTEGER)")
           (index_schema ("Table: customers" ++ nl ++ "- name (TEXT)") []))))
    by (vm_compute; left; reflexivity).
  split; [exact H|].
  exact (proj1 (proj2 (proj2 (proj2 index_schema_replaces)))
               (fun _ n c => firstn n c)
               (fun _ n c s Hs => firstn_subset n c s Hs)
               ("Table: customers" ++ nl ++ "- name (TEXT)")
               ("Table: orders" ++ nl ++ "- id (INTEGER)")
               [] "How many orders?" 3 _ H).
Defined.

(** ** More on the executor *)

Section SessionFacts.

Variable DataFrame : Type.
Variable engine : string -> execution DataFrame.

Lemma run_query_logs_step (query : string) (st : Session) :
  map entry_query (logs (snd (run_query DataFrame engine query st))) =
  if fst (validate_sql query) then query :: map entry_query (logs st)
  else map entry_query (logs st).
Proof.
  destruct (validate_sql query) as [[|] msg] eqn:E; cbn [fst].
  - rewrite run_query_valid by (rewrite E; reflexivity).
    destruct (engine query); reflexivity.
  - rewrite (run_query_invalid _ _ query msg st E). reflexivity.
Qed.

Lemma run_query_submitted_step (query : string) (st : Session) :
  submitted (snd (run_query DataFrame engine query st)) =
  if fst (validate_sql query) then query :: submitted st else submitted st.
Proof.
  destruct (validate_sql query) as [[|] msg] eqn:E; cbn [fst].
  - rewrite run_query_valid by (rewrite E; reflexivity).
    destruct (engine query); reflexivity.
  - rewrite (run_query_invalid _ _ query msg st E). reflexivity.
Qed.

(** X1.  [run_query] returns either rows and no error, or no rows and an
    error that is not the empty text, never both and never neither.  When
    it returns rows the query was valid and the newest entry of the log is
    the Success entry of this query with its duration; an error comes from
    the validator or from the engine, and an engine error is logged. *)
Theorem run_query_outcome (query : string) (st : Session) :
  match fst (run_query DataFrame engine query st) with
  | (Some df, None) =>
      fst (validate_sql query) = true /\
      exists duration,
        engine query = Rows df duration /\
        logs (snd (run_query DataFrame engine query st)) =
          Success query (duration ++ "s") :: logs st
  | (None, Some message) =>
      message <> "" /\
      (fst (validate_sql query) = false \/
       exists e, engine query = Failure e /\
                 logs (snd (run_query DataFrame engine query st)) =
                   Error query e :: logs st)
  | _ => False
  end.
Proof.
  destruct (validate_sql query) as [[|] msg] eqn:E.
  - rewrite run_query_valid by (rewrite E; reflexivity).
    destruct (engine query) as [df duration|e]; cbn [fst snd logs].
    + split; [reflexivity|]. exists duration. auto.
    + split; [discriminate|]. right. exists e. auto.
  - rewrite (run_query_invalid _ _ query msg st E). cbn [fst].
    split; [discriminate | left; reflexivity].
Qed.

(** X2.  Over the calls of a session the log gains exactly the queries the
    validator accepted, the newest first, and these are the queries handed
    to the engine. *)
Theorem run_session_log (queries : list string) (st : Session) :
  map entry_query (logs (run_session DataFrame engine queries st)) =
    (rev (filter (fun q => fst (validate_sql q)) queries)
     ++ map entry_query (logs st))%list /\
  submitted (run_session DataFrame engine queries st) =
    (rev (filter (fun q => fst (validate_sql q)) queries) ++ submitted st)%list.
Proof.
  revert st; induction queries as [|q queries IH]; intros st; [split; reflexivity|].
  cbn [run_session filter]. destruct (IH (snd (run_query DataFrame engine q st))) as [IH1 IH2].
  rewrite IH1, IH2, run_query_logs_step.
  rewrite run_query_submitted_step.
  destruct (fst (validate_sql q)); cbn [rev]; rewrite <- ?app_assoc; split; reflexivity.
Qed.

End SessionFacts.

(** ** More on the context store *)

Lemma collection_add_extends (new : list Snippet) (c : Collection) :
  exists added, collection_add new c = (c ++ added)%list /\ incl added new.
Proof.
  revert c; induction new as [|x new IH]; intros c; simpl.
  - exists []. rewrite app_nil_r. split; [reflexivity | apply incl_nil_l].
  - destruct (has_id (id x) c).
    + destruct (IH c) as [added [E I]]. exists added. split; [exact E|].
      apply incl_tl, I.
    + destruct (IH (c ++ [x])%list) as [added [E I]]. exists (x :: added).
      rewrite E, <- app_assoc. split; [reflexivity|].
      apply incl_cons; [left; reflexivity | apply incl_tl, I].
Qed.

Lemma collection_add_delete (key value : string) (new : list Snippet) (c : Collection) :
  (forall s, In s new -> satisfies key value s = true) ->
  collection_delete key value (collection_add new c) = collection_delete key value c.
Proof.
  intros H. destruct (collection_add_extends new c) as [added [-> I]].
  unfold collection_delete. rewrite filter_app.
  replace (filter (fun s => negb (satisfies key value s)) added) with (@nil Snippet).
  - apply app_nil_r.
  - symmetry. clear - H I. induction added as [|x added IH]; [reflexivity|].
    simpl. rewrite (H x) by (apply I; left; reflexivity). simpl.
    apply IH. intros s Hs. apply I. right; exact Hs.
Qed.

Lemma collection_delete_idem (key value : string) (c : Collection) :
  collection_delete key value (collection_delete key value c) =
  collection_delete key value c.
Proof.
  unfold collection_delete. induction c as [|x c IH]; simpl; [reflexivity|].
  destruct (satisfies key value x) eqn:E; simpl; [exact IH|].
  rewrite E. simpl. rewrite IH. reflexivity.
Qed.

Lemma schema_snippets_kind (schema_text : string) (s : Snippet) :
  In s (schema_snippets schema_text) -> satisfies "type" "schema" s = true.
Proof. intros H. apply (schema_loop_kind _ s H). Qed.

(** X3.  Indexing a second schema text gives the store that indexing it
    alone would give: nothing of the first text is left, and indexing the
    same text again changes nothing. *)
Theorem index_schema_last_wins (first second : string) (c : Collection) :
  index_schema second (index_schema first c) = index_schema second c.
Proof.
  rewrite !index_schema_unfold. f_equal.
  rewrite collection_add_delete by apply schema_snippets_kind.
  apply collection_delete_idem.
Qed.

Lemma logic_snippets_kind (s : Snippet) :
  In s logic_snippets -> satisfies "type" "logic" s = true.
Proof.
  unfold logic_snippets. intros H. apply in_map_iff in H as [[i doc] [<- _]].
  reflexivity.
Qed.

Lemma collection_get_nil_app (key value : string) (c added : Collection) :
  collection_get key value (c ++ added)%list = [] ->
  (forall s, In s added -> satisfies key value s = true) -> added = [].
Proof.
  unfold collection_get. rewrite filter_app. intros E H.
  apply app_eq_nil in E as [_ E]. destruct added as [|x added]; [reflexivity|].
  simpl in E. rewrite (H x) in E by (left; reflexivity). discriminate.
Qed.

Lemma initialize_collection_again (c : Collection) :
  initialize_collection (initialize_collection c) = initialize_collection c.
Proof.
  unfold initialize_collection at 2 3.
  destruct (Nat.ltb 0 (List.length (collection_get "type" "logic" c))) eqn:B.
  - unfold initialize_collection. rewrite B. reflexivity.
  - set (c1 := collection_add logic_snippets c).
    unfold initialize_collection.
    destruct (Nat.ltb 0 (List.length (collection_get "type" "logic" c1))) eqn:B1;
      [reflexivity|].
    apply Nat.ltb_ge in B1.
    assert (N : collection_get "type" "logic" c1 = [])
      by (destruct (collection_get "type" "logic" c1); [reflexivity | simpl in B1; lia]).
    destruct (collection_add_extends logic_snippets c) as [added [E I]].
    fold c1 in E. rewrite E in N. apply collection_get_nil_app in N.
    + subst added. rewrite app_nil_r in E. rewrite E. fold c1. exact E.
    + intros s Hs. apply logic_snippets_kind, I, Hs.
Qed.

(** X4.  [initialize_collection] is idempotent; it only appends snippets of
    the fixed logic corpus after the entries the store had, and it leaves
    the entries of every other type as they were. *)
Theorem initialize_collection_idempotent (c : Collection) :
  initialize_collection (initialize_collection c) = initialize_collection c /\
  (exists added,
     initialize_collection c = (c ++ added)%list /\ incl added logic_snippets) /\
  (forall value, value <> "logic" ->
     collection_get "type" value (initialize_collection c) = collection_get "type" value c).
Proof.
  split; [apply initialize_collection_again|]. split.
  - unfold initialize_collection.
    destruct (Nat.ltb 0 (List.length (collection_get "type" "logic" c))).
    + exists []. rewrite app_nil_r. split; [reflexivity | apply incl_nil_l].
    + apply collection_add_extends.
  - intros value Hv. unfold initialize_collection.
    destruct (Nat.ltb 0 (List.length (collection_get "type" "logic" c))); [reflexivity|].
    apply collection_add_get. intros s Hs.
    apply (satisfies_exclusive "type" "logic" value s);
      [congruence | apply logic_snippets_kind, Hs].
Qed.

Lemma initialize_collection_idempotent_witness :
  "schema" <> "logic" /\
  collection_get "type" "schema" (initialize_collection (schema_snippets "Table: t")) =
  collection_get "type" "schema" (schema_snippets "Table: t").
Proof.
  assert (H : "schema" <> "logic") by discriminate.
  split; [exact H|].
  exact (proj2 (proj2 (initialize_collection_idempotent (schema_snippets "Table: t")))
               "schema" H).
Defined.

Lemma has_id_spec (i : string) (c : Collection) :
  has_id i c = true <-> In i (map id c).
Proof.
  unfold has_id. rewrite existsb_exists, in_map_iff. split.
  - intros [s [Hs E]]. apply String.eqb_eq in E. exists s. auto.
  - intros [s [E Hs]]. exists s. split; [exact Hs | apply String.eqb_eq, E].
Qed.

Lemma has_id_false (i : string) (c : Collection) :
  has_id i c = false <-> ~ In i (map id c).
Proof.
  rewrite <- has_id_spec. destruct (has_id i c); split; congruence.
Qed.

Lemma collection_add_nodup (new : list Snippet) (c : Collection) :
  NoDup (map id c) -> NoDup (map id (collection_add new c)).
Proof.
  revert c; induction new as [|x new IH]; intros c H; simpl; [exact H|].
  destruct (has_id (id x) c) eqn:E; [apply IH, H|].
  apply IH. rewrite map_app. apply has_id_false in E.
  apply NoDup_app; [exact H | repeat constructor; intros [] |].
  intros a Ha [<-|[]]. contradiction.
Qed.

(** Deleting by a filter keeps the ids that are left distinct. *)
Lemma collection_delete_nodup (key value : string) (c : Collection) :
  NoDup (map id c) -> NoDup (map id (collection_delete key value c)).
Proof.
  unfold collection_delete. induction c as [|s c IH]; intros H; [constructor|].
  cbn [map] in H. apply NoDup_cons_iff in H as [Hs Hc].
  cbn [filter]. destruct (negb (satisfies key value s)); [|exact (IH Hc)].
  cbn [map]. apply NoDup_cons; [|exact (IH Hc)].
  intros K. apply Hs. apply in_map_iff in K as [y [Ey Hy]].
  apply filter_In in Hy as [Hy _]. rewrite <- Ey. apply in_map, Hy.
Qed.

(** X5.  A store whose ids are pairwise distinct stays so under
    [index_schema] and under [initialize_collection]. *)
Theorem ids_stay_unique (c : Collection) :
  NoDup (map id c) ->
  (forall schema_text, NoDup (map id (index_schema schema_text c))) /\
  NoDup (map id (initialize_collection c)).
Proof.
  intros H. split.
  - intros schema_text. rewrite index_schema_unfold.
    apply collection_add_nodup, collection_delete_nodup, H.
  - unfold initialize_collection.
    destruct (Nat.ltb 0 (List.length (collection_get "type" "logic" c)));
      [exact H | apply collection_add_nodup, H].
Qed.

Lemma ids_stay_unique_witness :
  NoDup (map id logic_snippets) /\
  (forall schema_text, NoDup (map id (index_schema schema_text logic_snippets))) /\
  NoDup (map id (initialize_collection logic_snippets)).
Proof.
  assert (H : NoDup (map id logic_snippets)).
  { vm_compute. repeat constructor; simpl; intuition discriminate. }
  split; [exact H | exact (ids_stay_unique logic_snippets H)].
Defined.

(** *** The ids of one batch *)

Lemma digits_no_underscore (d : Decimal.uint) :
  contains "_" (NilEmpty.string_of_uint d) = false.
Proof. induction d; simpl; try rewrite IHd; reflexivity. Qed.

Lemma str_of_nat_no_underscore (i : nat) : ~ infix "_" (str_of_nat i).
Proof. apply contains_false, digits_no_underscore. Qed.

Lemma str_of_nat_inj (i j : nat) : str_of_nat i = str_of_nat j -> i = j.
Proof.
  unfold str_of_nat. intros H.
  apply (f_equal NilEmpty.uint_of_string) in H. rewrite !NilEmpty.usu in H.
  injection H as H. apply Unsigned.to_uint_inj, H.
Qed.

(** The number after the last underscore of an id determines it. *)
Lemma suffix_after_underscore (a b x y : string) :
  ~ infix "_" x -> ~ infix "_" y ->
  a ++ "_" ++ x = b ++ "_" ++ y -> x = y.
Proof.
  intros Hx Hy E.
  destruct (append_eq_append _ _ _ _ E) as [[m [Eb Em]]|[m [Ea Em]]].
  - destruct m as [|c m]; simpl in Em.
    + injection Em as Em. exact Em.
    + injection Em as <- ->. elim Hx. exists m, y. reflexivity.
  - destruct m as [|c m]; simpl in Em.
    + injection Em as Em. symmetry; exact Em.
    + injection Em as <- ->. elim Hy. exists m, x. reflexivity.
Qed.

Lemma schema_loop_ids (k : nat) (chunks : list string) (s : Snippet) :
  In s (schema_loop (enumerate_from k chunks)) ->
  exists name i, k <= i /\ id s = "schema_" ++ name ++ "_" ++ str_of_nat i.
Proof.
  revert k; induction chunks as [|chunk chunks IH]; intros k; simpl; [intros []|].
  destruct (is_empty (strip chunk)).
  - intros H. destruct (IH _ H) as [name [i [L E]]]. exists name, i. split; [lia | exact E].
  - intros [<-|H].
    + eexists _, k. split; [lia | reflexivity].
    + destruct (IH _ H) as [name [i [L E]]]. exists name, i. split; [lia | exact E].
Qed.

Lemma schema_loop_nodup (k : nat) (chunks : list string) :
  NoDup (map id (schema_loop (enumerate_from k chunks))).
Proof.
  revert k; induction chunks as [|chunk chunks IH]; intros k; simpl; [constructor|].
  destruct (is_empty (strip chunk)); [apply IH|].
  simpl. constructor; [|apply IH].
  intros Hin. apply in_map_iff in Hin as [s [E Hs]].
  apply schema_loop_ids in Hs as [name [i [L Ei]]]. rewrite Ei in E.
  cbn [id] in E.
  apply (append_inv_head "schema_") in E.
  apply suffix_after_underscore in E;
    [|apply str_of_nat_no_underscore|apply str_of_nat_no_underscore].
  apply str_of_nat_inj in E. lia.
Qed.

Lemma collection_add_fresh (new : list Snippet) (c : Collection) :
  NoDup (map id new) ->
  (forall s, In s new -> ~ In (id s) (map id c)) ->
  collection_add new c = (c ++ new)%list.
Proof.
  revert c; induction new as [|x new IH]; intros c N H; simpl.
  - symmetry; apply app_nil_r.
  - apply NoDup_cons_iff in N as [Nx N].
    rewrite (proj2 (has_id_false (id x) c)) by (apply H; left; reflexivity).
    rewrite IH; [rewrite <- app_assoc; reflexivity | exact N |].
    intros s Hs Hin. rewrite map_app in Hin. apply in_app_or in Hin as [Hin|[E|[]]].
    + apply (H s); [right; exact Hs | exact Hin].
    + apply Nx. rewrite E. apply in_map, Hs.
Qed.

Lemma filter_all {A : Type} (p : A -> bool) (l : list A) :
  (forall x, In x l -> p x = true) -> filter p l = l.
Proof.
  induction l as [|x l IH]; intros H; simpl; [reflexivity|].
  rewrite (H x) by (left; reflexivity). rewrite IH; [reflexivity|].
  intros y Hy. apply H. right; exact Hy.
Qed.

Lemma filter_none {A : Type} (p : A -> bool) (l : list A) :
  (forall x, In x l -> p x = false) -> filter p l = [].
Proof.
  induction l as [|x l IH]; intros H; simpl; [reflexivity|].
  rewrite (H x) by (left; reflexivity). apply IH.
  intros y Hy. apply H. right; exact Hy.
Qed.

(** X6.  The ids of the snippets of one schema text are pairwise distinct,
    also for two tables of the same name.  When no entry of another type
    has one of these ids, [index_schema] appends every snippet of the text
    after the entries it kept, and the schema snippets of the store are
    exactly those of the text, in order. *)
Theorem index_schema_stores_every_chunk (schema_text : string) (c : Collection) :
  NoDup (map id (schema_snippets schema_text)) /\
  ((forall s, In s c -> satisfies "type" "schema" s = false ->
              ~ In (id s) (map id (schema_snippets schema_text))) ->
   index_schema schema_text c =
     (collection_delete "type" "schema" c ++ schema_snippets schema_text)%list /\
   collection_get "type" "schema" (index_schema schema_text c) =
     schema_snippets schema_text).
Proof.
  assert (N : NoDup (map id (schema_snippets schema_text)))
    by apply schema_loop_nodup.
  split; [exact N|]. intros H.
  assert (E : index_schema schema_text c =
              (collection_delete "type" "schema" c ++ schema_snippets schema_text)%list).
  { rewrite index_schema_unfold. apply collection_add_fresh; [exact N|].
    intros s Hs Hin. apply in_map_iff in Hin as [x [Ex Hx]].
    unfold collection_delete in Hx. apply filter_In in Hx as [Hx Kx].
    apply (H x Hx); [destruct (satisfies "type" "schema" x); [discriminate|reflexivity]|].
    rewrite Ex. apply in_map, Hs. }
  split; [exact E|]. rewrite E. unfold collection_get. rewrite filter_app.
  rewrite (filter_none _ (collection_delete "type" "schema" c))
    by apply collection_delete_none.
  apply filter_all, schema_snippets_kind.
Qed.

Lemma index_schema_stores_every_chunk_witness :
  (forall s, In s logic_snippets -> satisfies "type" "schema" s = false ->
             ~ In (id s) (map id (schema_snippets
                                    ("Table: a" ++ nl ++ "- x (TEXT)" ++ nl ++ nl ++
                                     "Table: a" ++ nl ++ "- y (TEXT)")))) /\
  collection_get "type" "schema"
    (index_schema ("Table: a" ++ nl ++ "- x (TEXT)" ++ nl ++ nl ++
                   "Table: a" ++ nl ++ "- y (TEXT)") logic_snippets) =
  schema_snippets ("Table: a" ++ nl ++ "- x (TEXT)" ++ nl ++ nl ++
                   "Table: a" ++ nl ++ "- y (TEXT)").
Proof.
  assert (H : forall s, In s logic_snippets -> satisfies "type" "schema" s = false ->
             ~ In (id s) (map id (schema_snippets
                                    ("Table: a" ++ nl ++ "- x (TEXT)" ++ nl ++ nl ++
                                     "Table: a" ++ nl ++ "- y (TEXT)")))).
  { intros s Hs _ Hin. vm_compute in Hin. vm_compute in Hs.
    repeat (destruct Hs as [<-|Hs]; [intuition discriminate|]). exact Hs. }
  split; [exact H|].
  exact (proj2 (proj2 (index_schema_stores_every_chunk _ logic_snippets) H)).
Defined.

(** *** Chunks *)

Lemma join_split_bounded (sep : string) (n : nat) (s : string) :
  sep <> "" -> String.length s <= n -> join sep (split s sep) = s.
Proof.
  intros N. revert s; induction n as [|n IH]; intros s L.
  - destruct s; [reflexivity | simpl in L; lia].
  - destruct (contains sep s) eqn:C.
    + apply contains_spec in C. destruct (first_cut_exists sep s C) as [a [b F]].
      rewrite (split_first_cut _ _ _ _ N F). destruct F as [-> _].
      destruct (split b sep) as [|p rest] eqn:E; [elim (split_go_nonempty _ _ _ E)|].
      rewrite join_cons, <- E, IH; [reflexivity|].
      rewrite !length_append in L. destruct sep; [congruence|]. simpl in L. lia.
    + apply contains_false in C. rewrite (split_none _ _ C). reflexivity.
Qed.

(** Joining the pieces with the separator gives the string back. *)
Lemma join_split (sep s : string) : sep <> "" -> join sep (split s sep) = s.
Proof. intros N. apply (join_split_bounded sep (String.length s) s N (le_n _)). Qed.

Lemma schema_loop_documents (k : nat) (chunks : list string) :
  (forall chunk, In chunk chunks -> strip chunk <> "") ->
  map document (schema_loop (enumerate_from k chunks)) =
  map (fun chunk => "Table: " ++ chunk) chunks.
Proof.
  revert k; induction chunks as [|chunk chunks IH]; intros k H; [reflexivity|].
  cbn [enumerate_from schema_loop].
  rewrite (proj2 (is_empty_false (strip chunk))) by (apply H; left; reflexivity).
  cbn [map document]. rewrite IH; [reflexivity|].
  intros x Hx. apply H. right; exact Hx.
Qed.

Lemma concat_prefixed (sep x : string) (l : list string) :
  String.concat "" (map (fun p => sep ++ p) (x :: l)) = sep ++ join sep (x :: l).
Proof.
  revert x; induction l as [|y l IH]; intros x.
  - reflexivity.
  - change (map (fun p => sep ++ p) (x :: y :: l))
      with ((sep ++ x) :: map (fun p => sep ++ p) (y :: l)).
    rewrite join_cons.
    change (String.concat "" ((sep ++ x) :: map (fun p => sep ++ p) (y :: l)))
      with ((sep ++ x) ++ "" ++ String.concat "" (map (fun p => sep ++ p) (y :: l))).
    rewrite IH. cbn [append]. rewrite !append_assoc. reflexivity.
Qed.

(** X7.  When a schema text starts with the table marker and no chunk after
    a marker is blank, the documents of its snippets, put end to end, are
    the text: chunking loses nothing. *)
Theorem schema_snippets_rebuild (schema_text : string) :
  startswith schema_text "Table: " = true ->
  (forall chunk, In chunk (tl (split schema_text "Table: ")) -> strip chunk <> "") ->
  String.concat "" (map document (schema_snippets schema_text)) = schema_text.
Proof.
  intros S H. apply startswith_spec in S as [b ->].
  assert (N : "Table: " <> "") by discriminate.
  assert (E : split ("Table: " ++ b) "Table: " = "" :: split b "Table: ")
    by (apply split_startswith, N).
  rewrite E in H. cbn [tl] in H.
  unfold schema_snippets, enumerate. rewrite E.
  cbn [enumerate_from schema_loop strip lstrip rstrip is_empty].
  rewrite (schema_loop_documents 1 _ H).
  destruct (split b "Table: ") as [|p rest] eqn:Es; [elim (split_go_nonempty _ _ _ Es)|].
  rewrite concat_prefixed, <- Es, join_split by exact N. reflexivity.
Qed.

Lemma schema_snippets_rebuild_witness :
  startswith ("Table: a" ++ nl ++ "- x (INT)" ++ nl ++ nl ++ "Table: b" ++ nl ++ "- y (TEXT)")
             "Table: " = true /\
  String.concat ""
    (map document
       (schema_snippets
          ("Table: a" ++ nl ++ "- x (INT)" ++ nl ++ nl ++ "Table: b" ++ nl ++ "- y (TEXT)")))
  = "Table: a" ++ nl ++ "- x (INT)" ++ nl ++ nl ++ "Table: b" ++ nl ++ "- y (TEXT)".
Proof.
  split; [reflexivity|].
  apply (schema_snippets_rebuild
           ("Table: a" ++ nl ++ "- x (INT)" ++ nl ++ nl ++ "Table: b" ++ nl ++ "- y (TEXT)"));
    [reflexivity|].
  intros chunk Hc. vm_compute in Hc.
  destruct Hc as [<-|[<-|[]]]; vm_compute; discriminate.
Defined.

(** X8.  A text without the table marker that is not blank is stored as one
    snippet: the marker is put before the whole text, and the table it is
    filed under is its first line (so the error text of a failed
    introspection becomes a table of its own).  A blank text gives no
    snippet. *)
Theorem schema_snippets_no_marker (schema_text : string) :
  ~ infix "Table: " schema_text ->
  schema_snippets schema_text =
  if is_empty (strip schema_text) then []
  else
    let table_name := strip (hd "" (split schema_text nl)) in
    [ mkSnippet ("schema_" ++ table_name ++ "_0") ("Table: " ++ schema_text)
                [("type", "schema"); ("table", table_name)] ].
Proof.
  intros H. unfold schema_snippets, enumerate. rewrite (split_none _ _ H).
  cbn [enumerate_from schema_loop]. destruct (is_empty (strip schema_text)); reflexivity.
Qed.

Lemma schema_snippets_no_marker_witness :
  ~ infix "Table: " "Error extracting schema: unable to open database file" /\
  schema_snippets "Error extracting schema: unable to open database file" =
  [ mkSnippet "schema_Error extracting schema: unable to open database file_0"
              "Table: Error extracting schema: unable to open database file"
              [("type", "schema");
               ("table", "Error extracting schema: unable to open database file")] ].
Proof.
  assert (H : ~ infix "Table: " "Error extracting schema: unable to open database file")
    by (apply contains_false; vm_compute; reflexivity).
  split; [exact H|].
  exact (schema_snippets_no_marker _ H).
Defined.

(** ** More on the validator *)

Lemma validate_sql_of_strip (q q' : string) :
  strip q = strip q' -> validate_sql q = validate_sql q'.
Proof.
  intros E. unfold validate_sql. rewrite <- E.
  destruct (is_empty q) eqn:A, (is_empty q') eqn:B; try reflexivity.
  - pose proof (strip_empty _ A) as Z. rewrite Z. reflexivity.
  - pose proof (strip_empty _ B) as Z. rewrite <- E in Z. rewrite Z. reflexivity.
Qed.

Lemma lstrip_blank (a s : string) : blank a = true -> lstrip (a ++ s) = lstrip s.
Proof.
  induction a as [|c a IH]; simpl; [reflexivity|].
  intros H. apply andb_true_iff in H as [Hc H]. rewrite Hc. apply IH, H.
Qed.

Lemma rstrip_blank_nil (b : string) : blank b = true -> rstrip b = "".
Proof.
  induction b as [|c b IH]; simpl; [reflexivity|].
  intros H. apply andb_true_iff in H as [Hc H]. rewrite Hc, (IH H). reflexivity.
Qed.

Lemma rstrip_blank (s b : string) : blank b = true -> rstrip (s ++ b) = rstrip s.
Proof.
  intros H. induction s as [|c s IH]; simpl.
  - apply rstrip_blank_nil, H.
  - rewrite IH. reflexivity.
Qed.

Lemma strip_blank_r (s b : string) : blank b = true -> strip (s ++ b) = strip s.
Proof.
  intros H. unfold strip. induction s as [|c s IH]; simpl.
  - rewrite <- (append_nil_r b), lstrip_blank by exact H. reflexivity.
  - destruct (isspace c); [exact IH|].
    change (String c (s ++ b)) with (String c s ++ b). apply rstrip_blank, H.
Qed.

Lemma strip_blank (a s b : string) :
  blank a = true -> blank b = true -> strip (a ++ s ++ b) = strip s.
Proof.
  intros Ha Hb. unfold strip. rewrite lstrip_blank by exact Ha.
  apply (strip_blank_r s b Hb).
Qed.

(** X9.  White space around a query changes neither the verdict nor the
    reason of [validate_sql]. *)
Theorem validate_sql_ignores_margins (a query b : string) :
  blank a = true -> blank b = true ->
  validate_sql (a ++ query ++ b) = validate_sql query.
Proof.
  intros Ha Hb. apply validate_sql_of_strip, strip_blank; assumption.
Qed.

Lemma validate_sql_ignores_margins_witness :
  blank (nl ++ "  ") = true /\ blank (" " ++ nl) = true /\
  validate_sql ((nl ++ "  ") ++ "SELECT 1;" ++ (" " ++ nl)) = validate_sql "SELECT 1;".
Proof.
  split; [reflexivity|]. split; [reflexivity|].
  apply validate_sql_ignores_margins; reflexivity.
Defined.

(** *** Letter case *)

Lemma is_empty_upper (s : string) : is_empty (upper s) = is_empty s.
Proof. destruct s; reflexivity. Qed.

Lemma lstrip_upper (s : string) : lstrip (upper s) = upper (lstrip s).
Proof.
  induction s as [|c s IH]; [reflexivity|].
  change (upper (String c s)) with (String (upper_char c) (upper s)).
  cbn [lstrip]. rewrite isspace_upper. destruct (isspace c); [exact IH | reflexivity].
Qed.

Lemma rstrip_upper (s : string) : rstrip (upper s) = upper (rstrip s).
Proof.
  induction s as [|c s IH]; [reflexivity|].
  change (upper (String c s)) with (String (upper_char c) (upper s)).
  cbn [rstrip]. rewrite isspace_upper, IH, is_empty_upper.
  destruct (isspace c && is_empty (rstrip s)); reflexivity.
Qed.

Lemma strip_upper (s : string) : strip (upper s) = upper (strip s).
Proof. unfold strip. rewrite lstrip_upper, rstrip_upper. reflexivity. Qed.

Lemma take_upper (n : nat) (s : string) : take n (upper s) = upper (take n s).
Proof.
  revert s; induction n as [|n IH]; intros [|c s]; try reflexivity.
  change (upper (String c s)) with (String (upper_char c) (upper s)).
  cbn [take]. rewrite IH. reflexivity.
Qed.

Lemma slice_to_upper (s : string) (i : Z) : slice_to (upper s) i = upper (slice_to s i).
Proof. unfold slice_to. rewrite length_upper. apply take_upper. Qed.

Lemma startswith_upper (p s : string) :
  all_caseless p -> startswith (upper s) p = startswith s p.
Proof.
  revert s; induction p as [|c p IH]; intros s H; [reflexivity|].
  destruct H as [Hc H]. destruct s as [|d s]; [reflexivity|].
  change (upper (String d s)) with (String (upper_char d) (upper s)).
  cbn [startswith]. rewrite Hc, IH by exact H. reflexivity.
Qed.

Lemma contains_upper (p s : string) :
  all_caseless p -> contains p (upper s) = contains p s.
Proof.
  intros H. induction s as [|d s IH].
  - reflexivity.
  - change (upper (String d s)) with (String (upper_char d) (upper s)).
    cbn [contains].
    change (String (upper_char d) (upper s)) with (upper (String d s)).
    rewrite startswith_upper, IH by exact H. reflexivity.
Qed.

Lemma caseless_check (c : ascii) :
  forallb (fun d => Bool.eqb (Ascii.eqb c (upper_char d)) (Ascii.eqb c d)) all_ascii = true ->
  caseless c.
Proof.
  intros H d. rewrite forallb_forall in H.
  apply Bool.eqb_prop, H, in_all_ascii.
Qed.

Lemma blank_upper (s : string) : blank (upper s) = blank s.
Proof.
  induction s as [|c s IH]; [reflexivity|].
  change (upper (String c s)) with (String (upper_char c) (upper s)).
  cbn [blank]. rewrite isspace_upper, IH. reflexivity.
Qed.

Lemma begins_with_select_upper (t : string) :
  begins_with_select (upper t) <-> begins_with_select t.
Proof.
  unfold begins_with_select, same_word. split.
  - intros [ws [m [rest [E [B W]]]]].
    apply upper_eq_append in E as [ws0 [r0 [-> [<- E]]]].
    apply upper_eq_append in E as [m0 [rest0 [-> [<- _]]]].
    exists ws0, m0, rest0. rewrite blank_upper in B. rewrite upper_idem in W. auto.
  - intros [ws [m [rest [-> [B W]]]]].
    exists (upper ws), (upper m), (upper rest).
    rewrite !upper_append, blank_upper, upper_idem. auto.
Qed.

Lemma select_match_upper (t : string) :
  re_match IGNORECASE select_pattern (upper t) = re_match IGNORECASE select_pattern t.
Proof.
  destruct (re_match IGNORECASE select_pattern t) eqn:E.
  - apply (proj2 (select_match_spec _)), (proj2 (begins_with_select_upper _)),
      (proj1 (select_match_spec _)), E.
  - destruct (re_match IGNORECASE select_pattern (upper t)) eqn:E'; [|reflexivity].
    apply (proj1 (select_match_spec _)) in E'.
    apply (proj1 (begins_with_select_upper _)) in E'.
    apply (proj2 (select_match_spec _)) in E'. congruence.
Qed.

Lemma validate_sql_upper (query : string) :
  validate_sql (upper query) = validate_sql query.
Proof.
  unfold validate_sql.
  rewrite is_empty_upper, strip_upper, is_empty_upper, slice_to_upper.
  rewrite select_match_upper, upper_idem.
  rewrite !contains_upper; [reflexivity | | |];
    (split; [apply caseless_check; vm_compute; reflexivity|]);
    try (split; [apply caseless_check; vm_compute; reflexivity|]); exact I.
Qed.

(** X10.  Two queries that differ only in the case of their letters get
    the same verdict and the same reason from [validate_sql]. *)
Theorem validate_sql_ignores_case (query query' : string) :
  upper query = upper query' -> validate_sql query = validate_sql query'.
Proof.
  intros E. rewrite <- (validate_sql_upper query), <- (validate_sql_upper query'), E.
  reflexivity.
Qed.

Lemma validate_sql_ignores_case_witness :
  upper "Select Name From Customers;" = upper "sELECT name FROM customers;" /\
  validate_sql "Select Name From Customers;" = validate_sql "sELECT name FROM customers;".
Proof.
  split; [reflexivity|]. apply validate_sql_ignores_case. reflexivity.
Defined.

(** ** More on the extractor *)

Lemma head_lstrip (s : string) (c : ascii) :
  head (lstrip s) = Some c -> isspace c = false.
Proof.
  induction s as [|x s IH]; simpl; [discriminate|].
  destruct (isspace x) eqn:E; [exact IH|].
  simpl. intros H; injection H as <-. exact E.
Qed.

Lemma head_rstrip (s : string) (c : ascii) :
  head (rstrip s) = Some c -> head s = Some c.
Proof.
  destruct s as [|x s]; simpl; [discriminate|].
  destruct (isspace x && is_empty (rstrip s)); [discriminate | auto].
Qed.

Lemma last_rstrip (s : string) (c : ascii) :
  last_char None (rstrip s) = Some c -> isspace c = false.
Proof.
  induction s as [|x s IH]; simpl; [discriminate|].
  destruct (isspace x && is_empty (rstrip s)) eqn:E; [discriminate|].
  simpl. destruct (rstrip s) as [|y r] eqn:R.
  - simpl. intros H; injection H as <-.
    simpl in E. rewrite andb_true_r in E. exact E.
  - exact IH.
Qed.

Lemma lstrip_fixed (s : string) :
  (forall c, head s = Some c -> isspace c = false) -> lstrip s = s.
Proof.
  destruct s as [|x s]; [reflexivity|]. intros H. simpl.
  rewrite (H x eq_refl). reflexivity.
Qed.

Lemma rstrip_fixed (s : string) :
  (forall c, last_char None s = Some c -> isspace c = false) -> rstrip s = s.
Proof.
  intros H. destruct s as [|x s]; [reflexivity|].
  destruct (last_char_some None (String x s)) as [c E]; [discriminate|].
  rewrite <- (append_nil_r (String x s)) at 1.
  rewrite (rstrip_append _ "" c E (H c E)). apply append_nil_r.
Qed.

Lemma strip_fixed (s : string) :
  (forall c, head s = Some c -> isspace c = false) ->
  (forall c, last_char None s = Some c -> isspace c = false) ->
  strip s = s.
Proof.
  intros Hh Hl. unfold strip. rewrite (lstrip_fixed s Hh). apply rstrip_fixed, Hl.
Qed.

Lemma head_strip (s : string) (c : ascii) :
  head (strip s) = Some c -> isspace c = false.
Proof. intros H. apply head_rstrip in H. apply (head_lstrip s c H). Qed.

Lemma last_strip (s : string) (c : ascii) :
  last_char None (strip s) = Some c -> isspace c = false.
Proof. apply last_rstrip. Qed.

Lemma strip_idem (s : string) : strip (strip s) = strip s.
Proof. apply strip_fixed; [apply head_strip | apply last_strip]. Qed.

Lemma clean_lines_trimmed (g : string) : strip (clean_lines g) = clean_lines g.
Proof. apply strip_idem. Qed.

Lemma first_cut_single (sep a b : string) (g : string) :
  first_cut sep g a b -> sep <> "" ->
  forall x y, a ++ sep = x ++ sep ++ y -> y = "".
Proof.
  intros [E L] N x y H.
  assert (E' : g = x ++ sep ++ (y ++ b)).
  { rewrite E, <- (append_assoc a sep b), H, !append_assoc. reflexivity. }
  specialize (L _ _ E').
  apply (f_equal String.length) in H. rewrite !length_append in H.
  destruct y; [reflexivity | simpl in H; lia].
Qed.

Lemma semicolon_fix_shape (g q : string) :
  strip g = g -> semicolon_fix g = Returned q ->
  strip q = q /\ ~ semicolon_inside q.
Proof.
  intros T. destruct (contains ";" g) eqn:C.
  - apply contains_spec in C. destruct (first_cut_exists ";" g C) as [a [b F]].
    rewrite (semicolon_fix_first g a b F). intros H; injection H as <-. split.
    + apply strip_fixed.
      * intros c Hc. destruct a as [|x a].
        -- simpl in Hc. injection Hc as <-. reflexivity.
        -- simpl in Hc. injection Hc as <-. apply (head_strip g).
           rewrite T. destruct F as [-> _]. reflexivity.
      * intros c Hc. rewrite last_char_append in Hc. simpl in Hc.
        injection Hc as <-. reflexivity.
    + intros [x [y [E Ny]]]. apply Ny.
      assert (N : ";" <> "") by discriminate.
      exact (first_cut_single ";" a b g F N x y E).
  - unfold semicolon_fix. rewrite C. intros H; injection H as <-.
    split; [exact T|]. intros [x [y [E _]]].
    apply contains_false in C. apply C. exists x, y. exact E.
Qed.

Lemma extract_completion_sql (content : string) (r : CompletionResult) :
  extract_completion content = Returned r ->
  exists candidate, semicolon_fix (clean_lines candidate) = Returned (sql r).
Proof.
  unfold extract_completion.
  destruct (unfenced content) as [g|]; cbn [bind]; [|discriminate].
  destruct (split_reasoning g) as [[reasoning candidate]|]; cbn [bind]; [|discriminate].
  destruct (semicolon_fix (clean_lines candidate)) as [q|] eqn:E; cbn [bind];
    [|discriminate].
  intros H; injection H as <-. exists candidate. exact E.
Qed.

Lemma validate_sql_multiple (q : string) :
  validate_sql q =
    (false, "Multiple statements are not allowed (semicolon detected in middle of query).") ->
  semicolon_inside (strip q).
Proof.
  unfold validate_sql.
  destruct (is_empty q); [intros H; injection H as H; discriminate H|].
  destruct (is_empty (strip q)); [intros H; injection H as H; discriminate H|].
  destruct (contains ";" (slice_to (strip q) (-1))) eqn:E;
    [intros _; apply semicolon_inside_spec, E|].
  destruct (negb (re_match IGNORECASE select_pattern (strip q)));
    [intros H; injection H as H; discriminate H|].
  destruct (first_prohibited prohibited_keywords (upper (strip q)));
    [intros H; injection H as H; discriminate H|].
  destruct (contains "--" (strip q) || contains "/*" (strip q));
    intros H; [injection H as H; discriminate H | discriminate H].
Qed.

(** X11.  Whatever the completion, the extracted sql is trimmed and has no
    semicolon before its final character, so [validate_sql] never rejects
    it for multiple statements. *)
Theorem extract_completion_one_statement (content : string) (r : CompletionResult) :
  extract_completion content = Returned r ->
  strip (sql r) = sql r /\
  ~ semicolon_inside (sql r) /\
  validate_sql (sql r) <>
    (false, "Multiple statements are not allowed (semicolon detected in middle of query).").
Proof.
  intros H. destruct (extract_completion_sql content r H) as [candidate E].
  destruct (semicolon_fix_shape _ _ (clean_lines_trimmed candidate) E) as [T S].
  split; [exact T|]. split; [exact S|].
  intros V. apply validate_sql_multiple in V. rewrite T in V. contradiction.
Qed.

Lemma extract_completion_one_statement_witness :
  extract_completion "  SELECT a FROM b ; DROP TABLE b; " =
    Returned (mkCompletion "" "SELECT a FROM b ;") /\
  strip "SELECT a FROM b ;" = "SELECT a FROM b ;" /\
  ~ semicolon_inside "SELECT a FROM b ;" /\
  validate_sql "SELECT a FROM b ;" <>
    (false, "Multiple statements are not allowed (semicolon detected in middle of query).").
Proof.
  assert (H : extract_completion "  SELECT a FROM b ; DROP TABLE b; " =
              Returned (mkCompletion "" "SELECT a FROM b ;")) by reflexivity.
  split; [exact H|].
  exact (extract_completion_one_statement _ _ H).
Defined.

(** *** The fallback on the first SELECT *)


















(** *** The copy in the test run *)

(** X13.  On a completion that does not begin with a fence or with the
    language tag, the extraction of the test run gives the sql that the
    extraction of the application gives. *)
Theorem test_extraction_agrees (content : string) :
  startswith (strip content) FENCE = false ->
  startswith (lower (strip content)) "sql" = false ->
  test_extraction content =
  (r <- extract_completion content ;; Returned (sql r)).
Proof.
  intros F L. unfold test_extraction, extract_completion, unfenced, strip_fence.
  rewrite F. cbn [bind]. unfold strip_language_tag. rewrite L.
  unfold test_candidate, split_reasoning.
  destruct (contains SEPARATOR (strip content)) eqn:C.
  - apply contains_spec in C.
    destruct (split_two SEPARATOR _ SEPARATOR_nonempty C) as [p0 [p1 [ps ->]]].
    cbn [item nth_error bind].
    destruct (semicolon_fix (clean_lines (strip p1))); reflexivity.
  - destruct (contains "SELECT" (upper (strip content))); cbn [bind];
      match goal with |- semicolon_fix ?x = _ => destruct (semicolon_fix x) end;
      reflexivity.
Qed.

Lemma test_extraction_agrees_witness :
  startswith (strip "Reasoning. ### SQL START ### SELECT 1;") FENCE = false /\
  startswith (lower (strip "Reasoning. ### SQL START ### SELECT 1;")) "sql" = false /\
  test_extraction "Reasoning. ### SQL START ### SELECT 1;" =
  (r <- extract_completion "Reasoning. ### SQL START ### SELECT 1;" ;; Returned (sql r)).
Proof.
  split; [reflexivity|]. split; [reflexivity|].
  apply test_extraction_agrees; reflexivity.
Defined.

(** ** The schema text and its chunks *)

Lemma append_last_char (x m a0 : string) (c : ascii) :
  x ++ m = a0 ++ String c "" -> m <> "" -> exists m', m = m' ++ String c "".
Proof.
  intros E N. destruct (append_eq_append _ _ _ _ E) as [[k [Ea Em]]|[k [Ex Ec]]].
  - exists k. exact Em.
  - destruct k as [|d k]; simpl in Ec.
    + exists "". symmetry; exact Ec.
    + injection Ec as _ Ec. symmetry in Ec. apply append_eq_nil in Ec as [_ ->].
      congruence.
Qed.

(** After a character that the separator does not have, the separator does
    not start earlier. *)
Lemma first_cut_after (sep a0 b : string) (c : ascii) :
  ~ infix (String c "") sep -> ~ infix sep (a0 ++ String c "") ->
  first_cut sep ((a0 ++ String c "") ++ sep ++ b) (a0 ++ String c "") b.
Proof.
  intros Hc Ha. split; [reflexivity|]. intros x y E.
  destruct (append_eq_append _ _ _ _ E) as [[m [Ex _]]|[m [Ea Em]]].
  - rewrite Ex, !length_append. lia.
  - destruct m as [|d m].
    + rewrite append_nil_r in Ea. rewrite Ea. lia.
    + exfalso. symmetry in Em.
      destruct (append_eq_append _ _ _ _ Em) as [[k [Es _]]|[k [Ek _]]].
      * destruct (append_last_char x (String d m) a0 c) as [m' Em'];
          [symmetry; exact Ea | discriminate|].
        apply Hc. rewrite Es, Em'. exists m', k.
        rewrite append_assoc. reflexivity.
      * apply Ha. rewrite Ea, Ek. exists x, k. reflexivity.
Qed.

Lemma marker_not_after_blank_line (b : string) :
  ~ infix "Table: " b -> ~ infix "Table: " ((b ++ nl) ++ nl).
Proof.
  intros H K. assert (N : ~ infix nl "Table: ")
    by (apply contains_false; reflexivity).
  apply (infix_cut _ (b ++ nl) "" LF N) in K as [K|K].
  - apply (infix_cut _ b "" LF N) in K as [K|K]; [contradiction|].
    destruct K as [x [y K]]. destruct x; discriminate K.
  - destruct K as [x [y K]]. destruct x; discriminate K.
Qed.

Lemma join_blocks_cons (b b2 : string) (rest : list string) :
  join (nl ++ nl) (map (fun body => "Table: " ++ body) (b :: b2 :: rest)) =
  "Table: " ++ ((b ++ nl) ++ nl) ++
  join (nl ++ nl) (map (fun body => "Table: " ++ body) (b2 :: rest)).
Proof.
  change (map (fun body => "Table: " ++ body) (b :: b2 :: rest))
    with (("Table: " ++ b) :: map (fun body => "Table: " ++ body) (b2 :: rest)).
  change (map (fun body => "Table: " ++ body) (b2 :: rest))
    with (("Table: " ++ b2) :: map (fun body => "Table: " ++ body) rest).
  rewrite join_cons. rewrite !append_assoc. reflexivity.
Qed.

(** The pieces of a text made of table blocks. *)
Lemma split_blocks (b : string) (rest : list string) :
  (forall body, In body (b :: rest) -> ~ infix "Table: " body) ->
  split (join (nl ++ nl) (map (fun body => "Table: " ++ body) (b :: rest))) "Table: " =
  "" :: table_chunks (b :: rest).
Proof.
  assert (N : "Table: " <> "") by discriminate.
  revert b; induction rest as [|b2 rest IH]; intros b H.
  - cbn [map join String.concat table_chunks].
    rewrite (split_startswith _ _ N), split_none; [reflexivity|].
    apply H. left; reflexivity.
  - rewrite join_blocks_cons, (split_startswith _ _ N).
    assert (IH' := IH b2 (fun body Hb => H body (or_intror Hb))).
    cbn [table_chunks] in *.
    set (J := join (nl ++ nl) (map (fun body => "Table: " ++ body) (b2 :: rest))) in *.
    assert (EJ : exists J', J = "Table: " ++ J').
    { unfold J. cbn [map]. destruct rest as [|b3 rest'].
      - exists b2. reflexivity.
      - eexists. cbn [map]. rewrite join_cons. rewrite append_assoc. reflexivity. }
    destruct EJ as [J' EJ]. rewrite EJ in *.
    rewrite (split_startswith _ _ N) in IH'. injection IH' as IH'.
    assert (F : first_cut "Table: " (((b ++ nl) ++ nl) ++ "Table: " ++ J')
                          ((b ++ nl) ++ nl) J').
    { apply (first_cut_after "Table: " (b ++ nl) J' LF).
      - apply contains_false. reflexivity.
      - apply marker_not_after_blank_line, H. left; reflexivity. }
    rewrite (split_first_cut _ _ _ _ N F), IH', append_assoc. reflexivity.
Qed.

Lemma table_chunks_not_blank (bodies : list string) (chunk : string) :
  (forall body, In body bodies -> strip body <> "") ->
  In chunk (table_chunks bodies) -> strip chunk <> "".
Proof.
  induction bodies as [|b rest IH]; intros H; [intros []|].
  cbn [table_chunks]. destruct rest as [|b2 rest].
  - intros [<-|[]]. apply H. left; reflexivity.
  - intros [<-|Hc].
    + rewrite (strip_blank_r b (nl ++ nl)) by reflexivity. apply H. left; reflexivity.
    + apply IH; [|exact Hc]. intros body Hb. apply H. right; exact Hb.
Qed.

Lemma schema_snippets_blocks (bodies : list string) :
  (forall body, In body bodies -> ~ infix "Table: " body) ->
  schema_snippets (join (nl ++ nl) (map (fun body => "Table: " ++ body) bodies)) =
  schema_loop (enumerate_from 1 (table_chunks bodies)).
Proof.
  intros H. unfold schema_snippets, enumerate. destruct bodies as [|b rest].
  - reflexivity.
  - rewrite (split_blocks b rest H). reflexivity.
Qed.

Lemma schema_loop_tables (k : nat) (chunks : list string) :
  (forall chunk, In chunk chunks -> strip chunk <> "") ->
  map (fun s => lookup "table" (metadata s)) (schema_loop (enumerate_from k chunks)) =
  map (fun chunk => Some (strip (hd "" (split chunk nl)))) chunks.
Proof.
  revert k; induction chunks as [|chunk chunks IH]; intros k H; [reflexivity|].
  cbn [enumerate_from schema_loop].
  rewrite (proj2 (is_empty_false (strip chunk))) by (apply H; left; reflexivity).
  cbn [map metadata]. rewrite IH by (intros x Hx; apply H; right; exact Hx).
  reflexivity.
Qed.

Lemma first_line (name rest : string) :
  ~ infix nl name -> hd "" (split (name ++ nl ++ rest) nl) = name.
Proof.
  intros H. rewrite (split_first_cut nl _ name rest); [reflexivity | discriminate|].
  split; [reflexivity|]. intros x y E.
  destruct (append_eq_append _ _ _ _ E) as [[m [Ex _]]|[m [En Em]]].
  - rewrite Ex, !length_append. lia.
  - destruct m as [|c m]; simpl in Em.
    + rewrite append_nil_r in En. rewrite En. lia.
    + injection Em as <- _. elim H. exists x, m. exact En.
Qed.

Lemma chunk_first_line (name body tail : string) :
  headed name body -> ~ infix nl name -> tail = "" \/ tail = nl ++ nl ->
  hd "" (split (body ++ tail) nl) = name.
Proof.
  intros [-> | [rest ->]] Hn [-> | ->].
  - rewrite append_nil_r, split_none by exact Hn. reflexivity.
  - apply (first_line name nl Hn).
  - rewrite append_nil_r. apply first_line, Hn.
  - rewrite !append_assoc. apply first_line, Hn.
Qed.

Lemma table_chunks_first_lines (names bodies : list string) :
  Forall2 headed names bodies ->
  (forall name, In name names -> ~ infix nl name) ->
  map (fun chunk => Some (strip (hd "" (split chunk nl)))) (table_chunks bodies) =
  map (fun name => Some (strip name)) names.
Proof.
  induction 1 as [|name body names bodies Hh F IH]; intros H; [reflexivity|].
  assert (Hn : ~ infix nl name) by (apply H; left; reflexivity).
  specialize (IH (fun n Hi => H n (or_intror Hi))).
  cbn [table_chunks]. destruct bodies as [|b2 bodies].
  - inversion F; subst. cbn [map].
    rewrite <- (append_nil_r body), (chunk_first_line name body "" Hh Hn) by auto.
    reflexivity.
  - cbn [map]. rewrite (chunk_first_line name body (nl ++ nl) Hh Hn) by auto.
    rewrite IH. reflexivity.
Qed.

(** What the two formatters have in common: one block per table, headed
    by its name. *)
Lemma schema_parts_headed (inspector : Inspector) (names parts : list string) :
  schema_parts inspector names = inr parts ->
  exists bodies,
    parts = map (fun body => "Table: " ++ body) bodies /\ Forall2 headed names bodies.
Proof.
  revert parts; induction names as [|name names IH]; intros parts; cbn [schema_parts].
  - intros H; injection H as <-. exists []. split; [reflexivity | constructor].
  - destruct (get_columns inspector name) as [e|columns]; cbn [and_then]; [discriminate|].
    destruct (get_foreign_keys inspector name) as [e|fks]; cbn [and_then]; [discriminate|].
    destruct (fk_strings fks) as [e|fk_lines]; cbn [and_then]; [discriminate|].
    destruct (schema_parts inspector names) as [e|tail]; cbn [and_then]; [discriminate|].
    intros H; injection H as <-. destruct (IH tail eq_refl) as [bodies [-> F]].
    exists ((name ++ nl ++ join nl (map col_string columns ++ fk_lines)) :: bodies).
    split; [reflexivity|]. constructor; [|exact F]. right. eexists; reflexivity.
Qed.

Lemma enriched_parts_headed (read_sql : string -> attempt (list string))
      (inspector : Inspector) (names parts : list string) :
  enriched_parts read_sql inspector names = inr parts ->
  exists bodies,
    parts = map (fun body => "Table: " ++ body) bodies /\ Forall2 headed names bodies.
Proof.
  revert parts; induction names as [|name names IH]; intros parts; cbn [enriched_parts].
  - intros H; injection H as <-. exists []. split; [reflexivity | constructor].
  - destruct (get_columns inspector name) as [e|columns]; cbn [and_then]; [discriminate|].
    destruct (get_foreign_keys inspector name) as [e|fks]; cbn [and_then]; [discriminate|].
    destruct (fk_strings fks) as [e|fk_lines]; cbn [and_then]; [discriminate|].
    destruct (enriched_parts read_sql inspector names) as [e|tail]; cbn [and_then];
      [discriminate|].
    intros H; injection H as <-. destruct (IH tail eq_refl) as [bodies [-> F]].
    destruct (map (enriched_col_string read_sql name) columns ++ fk_lines)%list
      as [|l ls] eqn:E.
    + exists (name :: bodies). split; [reflexivity|].
      constructor; [left; reflexivity | exact F].
    + exists ((name ++ nl ++ join nl (l :: ls)) :: bodies). split.
      * reflexivity.
      * constructor; [right; eexists; reflexivity | exact F].
Qed.

Lemma map_drop_marker (bodies : list string) :
  map (drop 7) (map (fun body => "Table: " ++ body) bodies) = bodies.
Proof. induction bodies as [|b bodies IH]; [reflexivity|]. cbn [map]. rewrite IH. reflexivity. Qed.

Lemma blank_append (a b : string) : blank (a ++ b) = blank a && blank b.
Proof.
  induction a as [|c a IH]; [reflexivity|]. simpl. rewrite IH. apply andb_assoc.
Qed.

Lemma strip_nil_blank (s : string) : strip s = "" <-> blank s = true.
Proof.
  split.
  - intros Z. destruct (strip_decomp s) as [a [b [E [Ba Bb]]]].
    rewrite Z in E. rewrite E. simpl. rewrite blank_append, Ba, Bb. reflexivity.
  - intros B. apply (strip_blank_r "" s B).
Qed.

Lemma strip_append_not_blank (a b : string) : strip a <> "" -> strip (a ++ b) <> "".
Proof.
  intros N Z. apply N. apply strip_nil_blank. apply strip_nil_blank in Z.
  rewrite blank_append in Z. apply andb_true_iff in Z as [Z _]. exact Z.
Qed.

(** One snippet per block, named after its table. *)
Lemma schema_snippets_headed (names bodies : list string) :
  Forall2 headed names bodies ->
  (forall name, In name names -> strip name <> "" /\ ~ infix nl name) ->
  (forall body, In body bodies -> ~ infix "Table: " body) ->
  let snippets :=
    schema_snippets (join (nl ++ nl) (map (fun body => "Table: " ++ body) bodies)) in
  map (fun s => lookup "table" (metadata s)) snippets =
    map (fun name => Some (strip name)) names /\
  map document snippets = map (fun chunk => "Table: " ++ chunk) (table_chunks bodies).
Proof.
  intros F Hn Hb. cbv zeta. rewrite (schema_snippets_blocks bodies Hb).
  assert (Hs : forall body, In body bodies -> strip body <> "").
  { clear Hb. induction F as [|name body names bodies Hh F IH]; [intros body []|].
    intros b [<-|Hin].
    - destruct (Hn name (or_introl eq_refl)) as [Ns _].
      destruct Hh as [-> | [rest ->]]; [exact Ns|].
      apply strip_append_not_blank, Ns.
    - apply IH; [|exact Hin]. intros n Hi. apply Hn. right; exact Hi. }
  assert (B : forall chunk, In chunk (table_chunks bodies) -> strip chunk <> "")
    by (intros chunk; apply table_chunks_not_blank, Hs).
  split.
  - rewrite (schema_loop_tables 1 _ B). apply table_chunks_first_lines; [exact F|].
    intros name Hi. apply Hn, Hi.
  - apply schema_loop_documents, B.
Qed.

(** X14.  When the introspection succeeds, the names of the tables are not
    blank and hold no line break, and the marker occurs in no table block
    after its header, the chunks of the text of [get_database_schema] are
    one per table, in order: each is filed under the trimmed name of its
    table and its document is the block of that table. *)
Theorem get_database_schema_chunks (inspector : Inspector) (names parts : list string) :
  get_table_names inspector = inr names ->
  schema_parts inspector names = inr parts ->
  (forall name, In name names -> strip name <> "" /\ ~ infix nl name) ->
  (forall part, In part parts -> ~ infix "Table: " (drop 7 part)) ->
  get_database_schema (inr inspector) = join (nl ++ nl) parts /\
  map (fun s => lookup "table" (metadata s))
      (schema_snippets (get_database_schema (inr inspector))) =
    map (fun name => Some (strip name)) names /\
  map document (schema_snippets (get_database_schema (inr inspector))) =
    map (fun chunk => "Table: " ++ chunk) (table_chunks (map (drop 7) parts)).
Proof.
  intros Hn Hp Hnames Hparts.
  assert (E : get_database_schema (inr inspector) = join (nl ++ nl) parts).
  { unfold get_database_schema. cbn [and_then]. rewrite Hn. cbn [and_then].
    rewrite Hp. reflexivity. }
  split; [exact E|]. rewrite E.
  destruct (schema_parts_headed inspector names parts Hp) as [bodies [-> F]].
  rewrite map_drop_marker.
  apply (schema_snippets_headed names bodies F Hnames).
  intros body Hb. specialize (Hparts ("Table: " ++ body)).
  apply Hparts. apply in_map_iff. exists body. auto.
Qed.

(** X15.  The same holds of the text of [enrich_schema_with_values], which
    is the one the application indexes: one chunk per table, in order,
    filed under the trimmed name of the table. *)
Theorem enrich_schema_chunks (schema_text : string) (inspector : Inspector)
        (read_sql : string -> attempt (list string)) (names parts : list string) :
  get_table_names inspector = inr names ->
  enriched_parts read_sql inspector names = inr parts ->
  (forall name, In name names -> strip name <> "" /\ ~ infix nl name) ->
  (forall part, In part parts -> ~ infix "Table: " (drop 7 part)) ->
  enrich_schema_with_values schema_text (inr inspector) read_sql =
    inr (join (nl ++ nl) parts) /\
  map (fun s => lookup "table" (metadata s)) (schema_snippets (join (nl ++ nl) parts)) =
    map (fun name => Some (strip name)) names /\
  map document (schema_snippets (join (nl ++ nl) parts)) =
    map (fun chunk => "Table: " ++ chunk) (table_chunks (map (drop 7) parts)).
Proof.
  intros Hn Hp Hnames Hparts. split.
  - unfold enrich_schema_with_values. cbn [and_then]. rewrite Hn. cbn [and_then].
    rewrite Hp. reflexivity.
  - destruct (enriched_parts_headed read_sql inspector names parts Hp) as [bodies [-> F]].
    rewrite map_drop_marker.
    apply (schema_snippets_headed names bodies F Hnames).
    intros body Hb. specialize (Hparts ("Table: " ++ body)).
    apply Hparts. apply in_map_iff. exists body. auto.
Qed.

(** The enrichment raises what the plain introspection raises. *)
Lemma enriched_parts_like_schema_parts (read_sql : string -> attempt (list string))
      (inspector : Inspector) (names : list string) :
  match schema_parts inspector names with
  | inl e => enriched_parts read_sql inspector names = inl e
  | inr parts =>
      exists enriched,
        enriched_parts read_sql inspector names = inr enriched /\
        List.length enriched = List.length parts
  end.
Proof.
  induction names as [|name names IH]; cbn [schema_parts enriched_parts].
  - exists []. auto.
  - destruct (get_columns inspector name) as [e|columns]; cbn [and_then]; [reflexivity|].
    destruct (get_foreign_keys inspector name) as [e|fks]; cbn [and_then]; [reflexivity|].
    destruct (fk_strings fks) as [e|fk_lines]; cbn [and_then]; [reflexivity|].
    destruct (schema_parts inspector names) as [e|parts]; cbn [and_then].
    + rewrite IH. reflexivity.
    + destruct IH as [enriched [-> L]]. cbn [and_then].
      eexists. split; [reflexivity|]. simpl. rewrite L. reflexivity.
Qed.

(** X16.  Whatever the sampling of values does, the enrichment fails
    exactly when the plain introspection fails, on the same exception: then
    [get_database_schema] gives the error text and
    [enrich_schema_with_values] gives its error text followed by the schema
    it was passed; otherwise both give as many table blocks. *)
Theorem enrichment_fails_like_introspection (schema_text : string)
        (inspector : Inspector) (read_sql : string -> attempt (list string)) :
  match and_then (get_table_names inspector) (schema_parts inspector) with
  | inl e =>
      get_database_schema (inr inspector) = "Error extracting schema: " ++ e /\
      enrich_schema_with_values schema_text (inr inspector) read_sql =
        inr ("Error enriching schema: " ++ e ++ nl ++ nl ++ schema_text)
  | inr parts =>
      get_database_schema (inr inspector) = join (nl ++ nl) parts /\
      exists enriched,
        List.length enriched = List.length parts /\
        enrich_schema_with_values schema_text (inr inspector) read_sql =
          inr (join (nl ++ nl) enriched)
  end.
Proof.
  unfold get_database_schema, enrich_schema_with_values. cbn [and_then].
  destruct (get_table_names inspector) as [e|names]; cbn [and_then]; [auto|].
  pose proof (enriched_parts_like_schema_parts read_sql inspector names) as H.
  destruct (schema_parts inspector names) as [e|parts]; cbn [and_then].
  - rewrite H. auto.
  - destruct H as [enriched [-> L]]. cbn [and_then]. eauto.
Qed.

Lemma demo_names_ok (name : string) :
  In name ["customers"; "orders"] -> strip name <> "" /\ ~ infix nl name.
Proof.
  intros [<-|[<-|[]]]; (split; [vm_compute; discriminate|]);
    apply contains_false; vm_compute; reflexivity.
Qed.

Lemma get_database_schema_chunks_witness :
  map (fun s => lookup "table" (metadata s))
      (schema_snippets (get_database_schema (inr demo_inspector))) =
  [Some "customers"; Some "orders"].
Proof.
  assert (Hp : exists parts, schema_parts demo_inspector ["customers"; "orders"] = inr parts
                             /\ forall part, In part parts ->
                                             ~ infix "Table: " (drop 7 part)).
  { eexists. split; [reflexivity|].
    intros part [<-|[<-|[]]]; apply contains_false; vm_compute; reflexivity. }
  destruct Hp as [parts [Hp Hm]].
  exact (proj1 (proj2 (get_database_schema_chunks demo_inspector
                         ["customers"; "orders"] parts eq_refl Hp demo_names_ok Hm))).
Defined.

Lemma enrich_schema_chunks_witness :
  exists parts,
    enrich_schema_with_values "" (inr demo_inspector) demo_read_sql =
      inr (join (nl ++ nl) parts) /\
    map (fun s => lookup "table" (metadata s)) (schema_snippets (join (nl ++ nl) parts)) =
      [Some "customers"; Some "orders"].
Proof.
  assert (Hp : exists parts,
             enriched_parts demo_read_sql demo_inspector ["customers"; "orders"] = inr parts
             /\ forall part, In part parts -> ~ infix "Table: " (drop 7 part)).
  { eexists. split; [reflexivity|].
    intros part [<-|[<-|[]]]; apply contains_false; vm_compute; reflexivity. }
  destruct Hp as [parts [Hp Hm]]. exists parts.
  destruct (enrich_schema_chunks "" demo_inspector demo_read_sql
              ["customers"; "orders"] parts eq_refl Hp demo_names_ok Hm) as [E [T _]].
  split; [exact E | exact T].
Defined.

(** *** A completion inside a fence *)

Lemma lstrip_rstrip (s : string) : lstrip (rstrip s) = rstrip (lstrip s).
Proof.
  induction s as [|c s IH]; [reflexivity|].
  cbn [rstrip lstrip]. destruct (isspace c) eqn:E; cbn [andb].
  - rewrite <- IH. destruct (rstrip s) eqn:R; cbn [is_empty].
    + reflexivity.
    + cbn [lstrip]. rewrite E. reflexivity.
  - cbn [lstrip rstrip]. rewrite E. reflexivity.
Qed.

Lemma rstrip_idem (s : string) : rstrip (rstrip s) = rstrip s.
Proof. apply rstrip_fixed, last_rstrip. Qed.

Lemma strip_rstrip (s : string) : strip (rstrip s) = strip s.
Proof. unfold strip. rewrite lstrip_rstrip, rstrip_idem. reflexivity. Qed.

Lemma fence_not_in_tagged (body : string) :
  ~ infix FENCE body -> ~ infix FENCE (("sql" ++ nl ++ body) ++ nl).
Proof.
  intros H K. assert (N : ~ infix nl FENCE) by (apply contains_false; reflexivity).
  apply (infix_cut _ ("sql" ++ nl ++ body) "" LF N) in K as [K|K].
  - apply (infix_cut _ "sql" body LF N) in K as [K|K]; [|contradiction].
    apply contains_spec in K. discriminate K.
  - destruct K as [x [y K]]. destruct x; discriminate K.
Qed.

(** X17.  A completion that is a body without fence marker, wrapped in a
    fence with the tag sql, is taken for the trimmed body; if the trimmed
    body does not itself begin with sql, the wrapped completion and the
    bare body are extracted to the same result. *)
Theorem unfenced_fenced_sql (body : string) :
  ~ infix FENCE body ->
  unfenced ("```sql" ++ nl ++ body ++ nl ++ "```") = Returned (strip body) /\
  (startswith (lower (strip body)) "sql" = false ->
   extract_completion ("```sql" ++ nl ++ body ++ nl ++ "```") = extract_completion body).
Proof.
  intros H.
  assert (U : unfenced ("```sql" ++ nl ++ body ++ nl ++ "```") = Returned (strip body)).
  { unfold unfenced.
    assert (S : strip ("```sql" ++ nl ++ body ++ nl ++ "```") =
                "```sql" ++ nl ++ body ++ nl ++ "```").
    { apply strip_fixed.
      - intros c Hc. injection Hc as <-. reflexivity.
      - intros c Hc.
        change ("```sql" ++ nl ++ body ++ nl ++ "```")
          with (("```sql" ++ nl) ++ body ++ nl ++ "```") in Hc.
        rewrite !last_char_append in Hc. injection Hc as <-. reflexivity. }
    rewrite S. unfold strip_fence.
    change ("```sql" ++ nl ++ body ++ nl ++ "```")
      with (FENCE ++ "sql" ++ nl ++ body ++ nl ++ "```").
    rewrite startswith_append, (split_startswith FENCE) by exact FENCE_nonempty.
    assert (F : first_cut FENCE ("sql" ++ nl ++ body ++ nl ++ "```")
                          (("sql" ++ nl ++ body) ++ nl) "").
    { replace ("sql" ++ nl ++ body ++ nl ++ "```")
        with ((("sql" ++ nl ++ body) ++ nl) ++ FENCE ++ "")
        by (rewrite !append_assoc; reflexivity).
      apply (first_cut_after FENCE ("sql" ++ nl ++ body) "" LF).
      - apply contains_false. reflexivity.
      - apply fence_not_in_tagged, H. }
    rewrite (split_first_cut _ _ _ _ FENCE_nonempty F).
    cbn [item nth_error bind].
    assert (T : strip (("sql" ++ nl ++ body) ++ nl) = "sql" ++ rstrip (nl ++ body ++ nl)).
    { rewrite !append_assoc. unfold strip. rewrite lstrip_fixed.
      - apply (rstrip_append "sql" (nl ++ body ++ nl) "l"); reflexivity.
      - intros c Hc. injection Hc as <-. reflexivity. }
    rewrite T. unfold strip_language_tag.
    replace (startswith (lower ("sql" ++ rstrip (nl ++ body ++ nl))) "sql") with true
      by reflexivity.
    replace (slice_from ("sql" ++ rstrip (nl ++ body ++ nl)) 3)
      with (rstrip (nl ++ body ++ nl)).
    - rewrite strip_rstrip, strip_blank by reflexivity. reflexivity.
    - unfold slice_from, clip. cbn [Z.ltb Z.compare String.length append].
      destruct (rstrip (nl ++ body ++ nl)); reflexivity. }
  split; [exact U|]. intros L.
  assert (U' : unfenced body = Returned (strip body)).
  { unfold unfenced, strip_fence.
    destruct (startswith (strip body) FENCE) eqn:E.
    - apply startswith_spec in E as [r E]. elim H.
      apply (infix_trans _ (strip body)); [exists "", r; exact E | apply infix_strip].
    - cbn [bind]. unfold strip_language_tag. rewrite L. reflexivity. }
  unfold extract_completion. rewrite U, U'. reflexivity.
Qed.

Lemma unfenced_fenced_sql_witness :
  ~ infix FENCE "SELECT name FROM customers;" /\
  unfenced ("```sql" ++ nl ++ "SELECT name FROM customers;" ++ nl ++ "```") =
    Returned (strip "SELECT name FROM customers;").
Proof.
  assert (H : ~ infix FENCE "SELECT name FROM customers;")
    by (apply contains_false; vm_compute; reflexivity).
  split; [exact H | exact (proj1 (unfenced_fenced_sql _ H))].
Defined.
